(** * PID tuning rules and performance analysis: a shallow embedding

    This development embeds the analytical core of the PID tuning tool
    ([src/tuning_rules.py] and [src/performance_analysis.py]) and proves the
    properties its specification states about it.

    Numbers.  A Python [float] that comes from the user (process gain, time
    constant, dead time, ...) is modelled by a real number: arithmetic is
    exact, rounding, overflow and signed zeros are not modelled.  The values
    that come back from [control.margin] can be [inf] or [nan], and the code
    tests for them, so those are modelled by the type [npfloat] below.

    Errors.  The code raises [ValueError] with a message; Python's true
    division of floats raises [ZeroDivisionError] on a zero divisor.  Both are
    kept, in a small error monad. *)

From Stdlib Require Import Reals Lra String List Bool Arith Lia.
From Stdlib Require Import Permutation Sorted.
From Stdlib Require PrimFloat.
Import ListNotations.

Open Scope R_scope.

(** ** Exceptions and the error monad *)

Inductive exn : Type :=
| ValueError (msg : string)
| ZeroDivisionError.

Inductive result (A : Type) : Type :=
| Ok (a : A)
| Raise (e : exn).

Arguments Ok {A} a.
Arguments Raise {A} e.

Definition bind {A B : Type} (m : result A) (k : A -> result B) : result B :=
  match m with
  | Ok a => k a
  | Raise e => Raise e
  end.

Notation "x <- m ;; k" := (bind m (fun x => k))
  (at level 61, m at next level, right associativity).

(** Boolean tests on reals, as the code's [==], [!=], [<=] and [<]. *)

Definition Reqb (x y : R) : bool := if Req_dec_T x y then true else false.
Definition Rleb (x y : R) : bool := if Rle_dec x y then true else false.
Definition Rltb (x y : R) : bool := if Rlt_dec x y then true else false.

(** Python's [x / y] on floats. *)

Definition pydiv (x y : R) : result R :=
  if Reqb y 0 then Raise ZeroDivisionError else Ok (x / y).

(** ** The messages of [tuning_rules.py] *)

Module Msg.
Open Scope string_scope.

Definition gain_zero : string := "Process gain (k_p) cannot be zero.".

Definition zn_open_no_dead_time : string :=
  "Ziegler-Nichols open-loop method is not applicable for systems with no dead time (theta <= 0).".

Definition cohen_coon_no_dead_time : string :=
  "Cohen-Coon method is not applicable for systems with no dead time (theta <= 0).".

Definition no_ultimate_gain : string :=
  "System does not have a finite ultimate gain (Ku). The Ziegler-Nichols closed-loop method is not applicable.".

Definition no_ultimate_period : string :=
  "System does not have a finite ultimate period (Tu). The Ziegler-Nichols closed-loop method is not applicable.".

Definition tau_c_not_positive : string :=
  "Closed-loop time constant (tau_c) must be positive.".

End Msg.

(** The specification sorts the [ValueError]s of the code in two kinds.  A
    rule that does not apply to a legal system is [NotApplicable]; those are
    the four messages that say so. *)

Definition is_not_applicable (e : exn) : bool :=
  match e with
  | ValueError m =>
      existsb (String.eqb m)
        [Msg.zn_open_no_dead_time; Msg.cohen_coon_no_dead_time;
         Msg.no_ultimate_gain; Msg.no_ultimate_period]
  | ZeroDivisionError => false
  end.

Definition is_invalid_parameter (e : exn) : bool :=
  match e with
  | ValueError m =>
      existsb (String.eqb m) [Msg.gain_zero; Msg.tau_c_not_positive]
  | ZeroDivisionError => false
  end.

Definition fails_not_applicable {A : Type} (r : result A) : Prop :=
  match r with
  | Ok _ => False
  | Raise e => is_not_applicable e = true
  end.

(** ** PID gains: the dict [{'Kp': .., 'Ki': .., 'Kd': ..}] *)

Record PID (A : Type) : Type := mkPID { Kp : A; Ki : A; Kd : A }.

Arguments mkPID {A} Kp Ki Kd.
Arguments Kp {A} p.
Arguments Ki {A} p.
Arguments Kd {A} p.

(** ** [tuning_rules.py]: the rules on FOPDT parameters *)

Definition ziegler_nichols_open_loop (k_p tau theta : R) : result (PID R) :=
  if Reqb k_p 0 then Raise (ValueError Msg.gain_zero)
  else if Rleb theta 0 then Raise (ValueError Msg.zn_open_no_dead_time)
  else
    kc <- pydiv (1.2 * tau) (k_p * theta) ;;
    let ti := 2.0 * theta in
    let td := 0.5 * theta in
    let kp_controller := kc in
    ki_controller <- pydiv kc ti ;;
    let kd_controller := kc * td in
    Ok (mkPID kp_controller ki_controller kd_controller).

Definition cohen_coon (k_p tau theta : R) : result (PID R) :=
  if Reqb k_p 0 then Raise (ValueError Msg.gain_zero)
  else if Rleb theta 0 then Raise (ValueError Msg.cohen_coon_no_dead_time)
  else
    let L := theta in
    let T := tau in
    let K := k_p in
    a <- pydiv T (K * L) ;;
    b <- pydiv 4 3 ;;
    c <- pydiv L (4 * T) ;;
    let kc := a * (b + c) in
    d <- pydiv (32 * T + 6 * L) (13 * T + 8 * L) ;;
    let ti := L * d in
    e <- pydiv (4 * T) (11 * T + 2 * L) ;;
    let td := L * e in
    let kp_controller := kc in
    ki_controller <- pydiv kc ti ;;
    let kd_controller := kc * td in
    Ok (mkPID kp_controller ki_controller kd_controller).

Definition imc (k_p tau theta tau_c : R) : result (PID R) :=
  if Reqb k_p 0 then Raise (ValueError Msg.gain_zero)
  else if Rleb tau_c 0 then Raise (ValueError Msg.tau_c_not_positive)
  else
    let K := k_p in
    let T := tau in
    let L := theta in
    a <- pydiv 1 K ;;
    kc <- pydiv (a * (T + 0.5 * L)) (tau_c + 0.5 * L) ;;
    let ti := T + 0.5 * L in
    td <- (if negb (Reqb (2 * T + L) 0) then pydiv (T * L) (2 * T + L)
           else Ok 0) ;;
    let kp_controller := kc in
    ki_controller <- (if negb (Reqb ti 0) then pydiv kc ti else Ok 0) ;;
    let kd_controller := kc * td in
    Ok (mkPID kp_controller ki_controller kd_controller).

(** ** numpy floats that may be infinite or not a number

    [control.margin] reports a margin without crossover as [inf] and the
    matching frequency as [nan].  The operations follow IEEE 754 on
    infinities and [nan], as numpy computes them (no exception on a zero
    divisor); zeros are taken as positive zeros. *)

Inductive npfloat : Type :=
| Fin (r : R)
| PInf
| NInf
| NaN.

Definition np_isinf (x : npfloat) : bool :=
  match x with
  | PInf | NInf => true
  | Fin _ | NaN => false
  end.

(** [x <= y]; every comparison with [nan] is false. *)
Definition np_leb (x y : npfloat) : bool :=
  match x, y with
  | NaN, _ | _, NaN => false
  | NInf, _ => true
  | _, PInf => true
  | Fin a, Fin b => Rleb a b
  | Fin _, NInf => false
  | PInf, _ => false
  end.

Definition signed_inf (positive : bool) : npfloat :=
  if positive then PInf else NInf.

(** The product of an infinity of the given sign with the finite [a]. *)
Definition inf_times (positive : bool) (a : R) : npfloat :=
  if Reqb a 0 then NaN
  else if Rltb 0 a then signed_inf positive
  else signed_inf (negb positive).

Definition np_mul (x y : npfloat) : npfloat :=
  match x, y with
  | NaN, _ | _, NaN => NaN
  | Fin a, Fin b => Fin (a * b)
  | Fin a, PInf | PInf, Fin a => inf_times true a
  | Fin a, NInf | NInf, Fin a => inf_times false a
  | PInf, PInf | NInf, NInf => PInf
  | PInf, NInf | NInf, PInf => NInf
  end.

Definition np_div (x y : npfloat) : npfloat :=
  match x, y with
  | NaN, _ | _, NaN => NaN
  | Fin a, Fin b =>
      if Reqb b 0 then
        (if Reqb a 0 then NaN else signed_inf (Rltb 0 a))
      else Fin (a / b)
  | Fin _, PInf | Fin _, NInf => Fin 0
  | PInf, Fin b => signed_inf (Rleb 0 b)
  | NInf, Fin b => signed_inf (negb (Rleb 0 b))
  | PInf, PInf | PInf, NInf | NInf, PInf | NInf, NInf => NaN
  end.

Definition is_finite (x : npfloat) : Prop :=
  match x with
  | Fin _ => True
  | _ => False
  end.

(** ** Polynomials and transfer functions ([numpy], [control])

    The rational-function algebra is the one of the libraries [numpy] and
    [control], which the repository imports; section 4.1 of the specification
    describes it (series composition by polynomial convolution, feedback
    reduction).  The definitions follow the SISO case of the libraries.

    A polynomial is the list of its coefficients, highest power first.  A
    transfer function is a pair of polynomials; its constructor drops the
    leading zero coefficients of both. *)

Fixpoint zip_with {A B C : Type} (f : A -> B -> C) (l : list A) (m : list B)
  : list C :=
  match l, m with
  | a :: l', b :: m' => f a b :: zip_with f l' m'
  | _, _ => []
  end.

(** Modelled from the spec: the coefficient lists of the rational model,
    as [control] normalises them (the library is not part of the
    repository): leading zeros dropped, the last coefficient kept. *)
Fixpoint truncatecoeff (p : list R) : list R :=
  match p with
  | [] => []
  | [c] => [c]
  | c :: p' => if Reqb c 0 then truncatecoeff p' else p
  end.

Definition pad_left (n : nat) (p : list R) : list R :=
  repeat 0 (n - length p) ++ p.

(** Modelled from the spec: polynomial addition, as [numpy.polyadd]
    computes it: the shorter list is padded with leading zeros. *)
Definition polyadd (a b : list R) : list R :=
  let n := Nat.max (length a) (length b) in
  zip_with Rplus (pad_left n a) (pad_left n b).

(** Modelled from the spec: polynomial convolution, [numpy.convolve] of two
    coefficient lists. *)
Fixpoint convolve (a b : list R) : list R :=
  match a with
  | [] => []
  | a0 :: a' =>
      polyadd (map (Rmult a0) b ++ repeat 0 (length a')) (convolve a' b)
  end.

(** Modelled from the spec: polynomial multiplication, as [numpy.polymul]
    computes it: both arguments go through [poly1d], which trims them. *)
Definition polymul (a b : list R) : list R :=
  convolve (truncatecoeff a) (truncatecoeff b).

Record TransferFunction : Type := mkTF { num : list R; den : list R }.

(** Modelled from the spec: the constructor [control.tf(num, den)]. *)
Definition tf (n d : list R) : TransferFunction :=
  mkTF (truncatecoeff n) (truncatecoeff d).

(** Modelled from the spec: the sum [sys1 + sys2] of [control], on a common
    denominator. *)
Definition tf_add (g h : TransferFunction) : TransferFunction :=
  tf (polyadd (polymul (num g) (den h)) (polymul (num h) (den g)))
     (polymul (den g) (den h)).

(** Modelled from the spec: the series composition [sys1 * sys2] of
    [control]: numerators and denominators are multiplied. *)
Definition tf_mul (g h : TransferFunction) : TransferFunction :=
  tf (polymul (num g) (num h)) (polymul (den g) (den h)).

(** The [ValueError] of [control] for a transfer function whose denominator
    is identically zero. *)
Module ControlMsg.
Open Scope string_scope.

Definition zero_denominator : string :=
  "Input 1, output 1 has a zero denominator.".

End ControlMsg.

(** All the coefficients are zero. *)
Definition all_zero (p : list R) : bool := forallb (fun c => Reqb c 0) p.

(** Modelled from the spec: [control.feedback(sys1, sys2)] with the default
    negative sign, [G / (1 + G H)]: the numerator is [G.num * H.den], the
    denominator [G.den * H.den + G.num * H.num].  The constructor that
    builds the result fails when that denominator is identically zero (the
    DegenerateModel of section 4.1, a [ValueError] of [control]), and stores
    the zero model as 0/1 when the numerator is identically zero. *)
Definition feedback (g h : TransferFunction) : result TransferFunction :=
  let n := polymul (num g) (den h) in
  let d := polyadd (polymul (den h) (den g)) (polymul (num h) (num g)) in
  if all_zero d then Raise (ValueError ControlMsg.zero_denominator)
  else if all_zero n then Ok (tf n [1])
  else Ok (tf n d).

(** The right operand of [+] is a transfer function or a Python number,
    which [control] converts to the constant transfer function. *)
Inductive operand : Type :=
| OTf (g : TransferFunction)
| OScalar (x : R).

Definition to_tf (o : operand) : TransferFunction :=
  match o with
  | OTf g => g
  | OScalar x => tf [x] [1]
  end.

(** ** Complex numbers, for poles and frequency responses *)

Record complex : Type := mkC { re : R; im : R }.

Definition Cadd (z w : complex) : complex := mkC (re z + re w) (im z + im w).
Definition Cmul (z w : complex) : complex :=
  mkC (re z * re w - im z * im w) (re z * im w + im z * re w).
Definition Cconj (z : complex) : complex := mkC (re z) (- im z).
Definition Cof (x : R) : complex := mkC x 0.

(** Horner evaluation of a polynomial, highest power first. *)
Definition polyval (p : list R) (s : complex) : complex :=
  fold_left (fun acc c => Cadd (Cmul acc s) (Cof c)) p (Cof 0).

(** The open loop [g] has a phase crossover at the frequency [w]: the
    response [g(jw) = N/D] is a negative real number.  [N/D] has the sign and
    the direction of [N * conj D]. *)
Definition phase_crossover (g : TransferFunction) (w : R) : Prop :=
  let s := mkC 0 w in
  let n := polyval (num g) s in
  let d := polyval (den g) s in
  d <> Cof 0 /\ im (Cmul n (Cconj d)) = 0 /\ re (Cmul n (Cconj d)) < 0.

(** ** The functions of [control] that the code calls and that compute
    numerically (root finding, frequency sweep, simulation): they are
    parameters of the development. *)

Record Control : Type := mkControl {
  (** [control.margin(sys)]: [(gm, pm, wcg, wcp)]. *)
  margin : TransferFunction -> npfloat * npfloat * npfloat * npfloat;
  (** [control.poles(sys)], which may raise. *)
  poles : TransferFunction -> result (list complex);
  (** [control.step_response(sys, T)]: [(t, y)], unless it raises. *)
  step_response : TransferFunction -> list R -> result (list R * list R);
  (** [control.step_info(sys, T, SettlingTimeThreshold)], unless it raises. *)
  step_info : TransferFunction -> list R -> R -> result (list (string * npfloat))
}.

(** ** [tuning_rules.py]: the closed-loop rule *)

Definition ziegler_nichols_closed_loop (ct : Control) (tf_model : TransferFunction)
  : result (PID npfloat) :=
  let '(gm, _, wg, _) := margin ct tf_model in
  if np_isinf gm || np_leb gm (Fin 0) then
    Raise (ValueError Msg.no_ultimate_gain)
  else
    let ku := gm in
    if np_leb wg (Fin 0) then
      Raise (ValueError Msg.no_ultimate_period)
    else
      let tu := np_div (Fin (2 * PI)) wg in
      let kc := np_mul (Fin 0.6) ku in
      let ti := np_div tu (Fin 2.0) in
      let td := np_div tu (Fin 8.0) in
      let kp_controller := kc in
      let ki_controller := np_div kc ti in
      let kd_controller := np_mul kc td in
      Ok (mkPID kp_controller ki_controller kd_controller).

(** The components of [control.margin(sys)] that the code reads. *)
Definition gain_margin_of (ct : Control) (g : TransferFunction) : npfloat :=
  let '(gm, _, _, _) := margin ct g in gm.

Definition phase_margin_of (ct : Control) (g : TransferFunction) : npfloat :=
  let '(_, pm, _, _) := margin ct g in pm.

Definition phase_crossover_frequency_of (ct : Control) (g : TransferFunction)
  : npfloat :=
  let '(_, _, wg, _) := margin ct g in wg.

(** No finite ultimate gain or period: the gain margin [ku] is infinite or
    not positive, or the phase-crossover frequency [wpc] is not positive. *)
Definition no_ultimate_point (ku wpc : npfloat) : Prop :=
  np_isinf ku = true \/ np_leb ku (Fin 0) = true \/ np_leb wpc (Fin 0) = true.

(** Instances of [Control] to run the code on: the margins and the poles
    are the same for every system, and the simulation returns the times it
    is given with a flat output.  [no_crossover_control] finds no crossover,
    as for 1/(s+1); [third_order_control] finds the ultimate gain 8 at the
    frequency sqrt 3 and no gain crossover, as for 1/(s+1)^3;
    [second_order_control] finds the poles of 1/(s^2+s+2). *)
Definition constant_control (m : npfloat * npfloat * npfloat * npfloat)
    (ps : result (list complex)) : Control :=
  mkControl (fun _ => m) (fun _ => ps)
            (fun _ t => Ok (t, map (fun _ => 1) t))
            (fun _ _ _ => Ok []).

Definition no_crossover_control : Control :=
  constant_control (PInf, PInf, NaN, NaN) (Ok [mkC (-1) 0]).

Definition third_order_control : Control :=
  constant_control (Fin 8, PInf, Fin (sqrt 3), NaN)
                   (Ok [mkC (-1) 0; mkC (-1) 0; mkC (-1) 0]).

Definition second_order_control : Control :=
  constant_control (PInf, PInf, NaN, NaN)
                   (Ok [mkC (-0.5) (sqrt 7 / 2); mkC (-0.5) (- sqrt 7 / 2)]).

(** ** [performance_analysis.py] *)

(** [get_pid_controller].  The sum [p + i + d] always is a transfer function,
    since [p] is one, so the branch for a sum that is not one never runs. *)
Definition get_pid_controller (pid_params : PID R) : TransferFunction :=
  let kp := Kp pid_params in
  let ki := Ki pid_params in
  let kd := Kd pid_params in
  let p := tf [kp] [1] in
  let i := if negb (Reqb ki 0) then OTf (tf [ki] [1; 0]) else OScalar 0 in
  let d := if negb (Reqb kd 0) then OTf (tf [kd; 0] [1]) else OScalar 0 in
  let controller_tf := tf_add (tf_add p (to_tf i)) (to_tf d) in
  controller_tf.

Record StepResponse : Type := mkStepResponse {
  time : list R;
  output : list R;
  info : list (string * npfloat)
}.

(** The [info] of the response without controller action. *)
Definition nan_info : list (string * npfloat) :=
  [("RiseTime", NaN); ("SettlingTime", NaN); ("Overshoot", NaN);
   ("Peak", NaN); ("PeakTime", NaN)]%string.

(** Python's built-in [sorted] on floats: the values in increasing order. *)
Fixpoint insert_sorted (x : R) (l : list R) : list R :=
  match l with
  | [] => [x]
  | y :: l' => if Rleb x y then x :: l else y :: insert_sorted x l'
  end.

Definition sorted (l : list R) : list R := fold_right insert_sorted [] l.

(** Modelled from the spec: the linearly spaced samples of
    [numpy.linspace(start, stop, num)], as numpy computes them: the multiples
    of the step [(stop - start) / (num - 1)] from [start], the last sample
    set to [stop]. *)
Definition linspace (start stop : R) (n : nat) : list R :=
  let step := (stop - start) / INR (n - 1) in
  let y := map (fun i => INR i * step + start) (seq 0 n) in
  if (1 <? n)%nat then removelast y ++ [stop] else y.

(** The simulation horizon: the [try] block of [analyze_step_response].  The
    closed loop is formed before the [try], so that an error of
    [control.feedback] is not caught there. *)
Definition T_final_of (ct : Control) (closed_loop_tf : TransferFunction) : R :=
  match poles ct closed_loop_tf with
  | Raise _ => 50
  | Ok ps =>
      if (length ps =? 0)%nat then 50
      else
        let real_parts :=
          sorted (map (fun p => Rabs (re p))
                      (filter (fun p => Rltb (re p) (-1e-6)) ps)) in
        match real_parts with
        | [] => 50
        | slowest_pole_decay :: _ => 10 / slowest_pole_decay
        end
  end.

Definition analyze_step_response (ct : Control) (sys_tf : TransferFunction)
    (pid_params : PID R) : result StepResponse :=
  let controller_tf := get_pid_controller pid_params in
  if forallb (fun c => Reqb c 0) (num controller_tf) then
    Ok (mkStepResponse [0; 1] [0; 0] nan_info)
  else
    closed_loop_tf <- feedback (tf_mul controller_tf sys_tf) (tf [1] [1]) ;;
    let T_final := T_final_of ct closed_loop_tf in
    let time_vec := linspace 0 T_final 1500 in
    ty <- step_response ct closed_loop_tf time_vec ;;
    inf <- step_info ct closed_loop_tf time_vec 0.02 ;;
    Ok (mkStepResponse (fst ty) (snd ty) inf).

(** Modelled from the spec: trapezoidal integration, as [numpy.diff] and
    [numpy.trapezoid(y, x)] compute it on arrays:
    [sum(diff(x) * (y[1:] + y[:-1]) / 2.0)]. *)
Definition diff (x : list R) : list R :=
  zip_with Rminus (tl x) (removelast x).

Definition trapezoid (y x : list R) : R :=
  fold_left Rplus
    (zip_with (fun d s => d * s / 2.0) (diff x)
              (zip_with Rplus (tl y) (removelast y)))
    0.

Record PerformanceIndices : Type := mkIndices {
  IAE : npfloat;
  ISE : npfloat;
  ITAE : npfloat;
  ITSE : npfloat
}.

Definition calculate_performance_indices (time output : list R) (setpoint : R)
  : PerformanceIndices :=
  if negb (length time =? length output)%nat || (length time <? 2)%nat then
    mkIndices NaN NaN NaN NaN
  else
    let error := map (fun o => setpoint - o) output in
    let iae := trapezoid (map Rabs error) time in
    let ise := trapezoid (map (fun e => e ^ 2) error) time in
    let itae := trapezoid (zip_with Rmult time (map Rabs error)) time in
    let itse := trapezoid (zip_with Rmult time (map (fun e => e ^ 2) error)) time in
    mkIndices (Fin iae) (Fin ise) (Fin itae) (Fin itse).

(** A margin as [analyze_frequency_domain] reports it: the number, or the
    string ['stable']. *)
Inductive margin_value : Type :=
| MNumber (x : npfloat)
| MString (s : string).

Definition stable : margin_value := MString "stable".

Record StabilityMargins : Type := mkMargins {
  GainMargin : margin_value;
  PhaseMargin : margin_value
}.

Definition analyze_frequency_domain (ct : Control) (sys_tf : TransferFunction)
    (pid_params : PID R) : StabilityMargins :=
  let controller_tf := get_pid_controller pid_params in
  let open_loop_tf := tf_mul controller_tf sys_tf in
  let '(gm, pm, _, _) := margin ct open_loop_tf in
  let gain_margin_val := if negb (np_isinf gm) then MNumber gm else stable in
  let phase_margin_val := if negb (np_isinf pm) then MNumber pm else stable in
  mkMargins gain_margin_val phase_margin_val.

(** ** The simulation horizon as the specification words it

    [r] is the slowest decay rate of the poles [ps]: the smallest magnitude
    of the real part among the poles whose real part is below -1e-6. *)

Definition decaying (p : complex) : Prop := re p < -1e-6.

Definition slowest_decay (ps : list complex) (r : R) : Prop :=
  (exists p, In p ps /\ decaying p /\ r = Rabs (re p))
  /\ (forall p, In p ps -> decaying p -> r <= Rabs (re p)).

(** Ten time constants of the slowest decaying pole; 50 when no pole decays
    (none at all, integrators, unstable ones) or pole extraction raised. *)
Definition horizon (ps : result (list complex)) (T_final : R) : Prop :=
  match ps with
  | Raise _ => T_final = 50
  | Ok ps =>
      (exists r, slowest_decay ps r /\ T_final = 10 / r)
      \/ ((forall p, In p ps -> ~ decaying p) /\ T_final = 50)
  end.

(** ** The trapezoidal rule as the specification words it

    The integral of [f] over the grid [t_0 < ... < t_(n-1)] is the sum over
    the [n - 1] intervals of [(t_(i+1) - t_i) * (f_i + f_(i+1)) / 2]. *)

Fixpoint sum_upto (n : nat) (g : nat -> R) : R :=
  match n with
  | O => 0
  | S k => sum_upto k g + g k
  end.

Definition trapezoidal_rule (n : nat) (t f : nat -> R) : R :=
  sum_upto (n - 1)
    (fun i => (t (S i) - t i) * (f i + f (S i)) / 2).

(** The sample [i] of an array. *)
Definition sample (l : list R) (i : nat) : R := nth i l 0.

(** The error [e(t) = setpoint - output(t)] at the sample [i]. *)
Definition error_at (setpoint : R) (output : list R) (i : nat) : R :=
  setpoint - sample output i.

(** ** [transfer_functions.py]: the plant models *)

Module TfMsg.
Open Scope string_scope.

Definition tau_not_positive : string := "Time constant (tau) must be positive.".

Definition theta_negative : string := "Dead time (theta) cannot be negative.".

Definition omega_n_not_positive : string :=
  "Natural frequency (omega_n) must be positive.".

Definition zeta_not_positive : string :=
  "Damping ratio (zeta) must be positive for a stable system.".

Definition pade_negative : string := "require T >= 0".

End TfMsg.

(** Modelled from the spec: the first-order Pade approximation of the dead
    time, [control.pade(T, 1)], as the library computes it (section 4.2:
    numerator [1 - T s / 2], denominator [1 + T s / 2], scaled to a leading
    denominator coefficient 1): the coefficient [T / 2] of [s], then both
    lists divided by it. *)
Definition pade (T : R) : result (list R * list R) :=
  if negb (Rleb 0 T) then Raise (ValueError TfMsg.pade_negative)
  else if Reqb T 0 then Ok ([1], [1])
  else
    let cn := 1 * (- T * 1 / 2 / 1) in
    let cd := 1 * (T * 1 / 2 / 1) in
    let num := [cn; 1] in
    let den := [cd; 1] in
    n0 <- pydiv cn cd ;;
    n1 <- pydiv 1 cd ;;
    d0 <- pydiv cd cd ;;
    d1 <- pydiv 1 cd ;;
    Ok ([n0; n1], [d0; d1]).

(** The dead-time factor both constructors build. *)
Definition dead_time_tf (theta : R) : result TransferFunction :=
  if Rltb 0 theta then
    nd <- pade theta ;;
    Ok (tf (fst nd) (snd nd))
  else Ok (tf [1] [1]).

Module FirstOrder.
Record t : Type := mk { Kp : R; tau : R; theta : R; tf_model : TransferFunction }.
End FirstOrder.

(** [FirstOrderTransferFunction.__init__]. *)
Definition FirstOrderTransferFunction (Kp tau theta : R) : result FirstOrder.t :=
  if Rleb tau 0 then Raise (ValueError TfMsg.tau_not_positive)
  else if Rltb theta 0 then Raise (ValueError TfMsg.theta_negative)
  else
    dead_time <- dead_time_tf theta ;;
    Ok (FirstOrder.mk Kp tau theta (tf_mul (tf [Kp] [tau; 1]) dead_time)).

Module SecondOrder.
Record t : Type :=
  mk { Kp : R; omega_n : R; zeta : R; theta : R; tf_model : TransferFunction }.
End SecondOrder.

(** [SecondOrderTransferFunction.__init__]. *)
Definition SecondOrderTransferFunction (Kp omega_n zeta theta : R)
  : result SecondOrder.t :=
  if Rleb omega_n 0 then Raise (ValueError TfMsg.omega_n_not_positive)
  else if Rleb zeta 0 then Raise (ValueError TfMsg.zeta_not_positive)
  else if Rltb theta 0 then Raise (ValueError TfMsg.theta_negative)
  else
    dead_time <- dead_time_tf theta ;;
    let numerator := [Kp * omega_n ^ 2] in
    let denominator := [1; 2 * zeta * omega_n; omega_n ^ 2] in
    Ok (SecondOrder.mk Kp omega_n zeta theta
          (tf_mul (tf numerator denominator) dead_time)).

(** ** Poles, zeros and magnitudes of a rational model *)

Definition Copp (z : complex) : complex := mkC (- re z) (- im z).
Definition Csub (z w : complex) : complex := Cadd z (Copp w).

Fixpoint Cpow (z : complex) (n : nat) : complex :=
  match n with
  | O => Cof 1
  | S k => Cmul z (Cpow z k)
  end.

(** One step of the Horner evaluation in [polyval]. *)
Definition horner (s : complex) (acc : complex) (c : R) : complex :=
  Cadd (Cmul acc s) (Cof c).

(** The squared modulus. *)
Definition Cnorm2 (z : complex) : R := re z * re z + im z * im z.

(** [s] is a pole of [g]: a root of its denominator, as [control.poles]
    finds them; [s] is a zero of [g]: a root of its numerator. *)
Definition is_pole (g : TransferFunction) (s : complex) : Prop :=
  polyval (den g) s = Cof 0.

Definition is_zero (g : TransferFunction) (s : complex) : Prop :=
  polyval (num g) s = Cof 0.

(** The grid [time] does not go back. *)
Definition nondecreasing (time : list R) : Prop :=
  forall i : nat, (S i < length time)%nat -> sample time i <= sample time (S i).


(** ** The open-loop rule in binary64

    The same lines of [ziegler_nichols_open_loop], computed as Python does,
    in IEEE 754 binary64 with rounding to nearest: the real-number model
    above leaves rounding and underflow out, this one shows where they
    matter. *)

Module Binary64.
Import PrimFloat.
#[local] Set Warnings "-inexact-float".
Local Open Scope float_scope.

(** Python's [x / y] on floats. *)
Definition float_div (x y : float) : result float :=
  if eqb y 0 then Raise ZeroDivisionError else Ok (x / y).

Definition ziegler_nichols_open_loop_b64 (k_p tau theta : float)
  : result (PID float) :=
  if eqb k_p 0 then Raise (ValueError Msg.gain_zero)
  else if leb theta 0 then Raise (ValueError Msg.zn_open_no_dead_time)
  else
    kc <- float_div (1.2 * tau) (k_p * theta) ;;
    let ti := 2.0 * theta in
    let td := 0.5 * theta in
    let kp_controller := kc in
    ki_controller <- float_div kc ti ;;
    let kd_controller := kc * td in
    Ok (mkPID kp_controller ki_controller kd_controller).


(** Valid parameters whose product underflows to zero. *)
Definition tiny : float := 1e-200.
Definition unit : float := 1.

End Binary64.

(** ** Basic facts about the tests and the division *)

Lemma Reqb_true (x y : R) : x = y -> Reqb x y = true.
Proof. intros H. unfold Reqb. destruct (Req_dec_T x y); [reflexivity | contradiction]. Qed.

Lemma Reqb_false (x y : R) : x <> y -> Reqb x y = false.
Proof. intros H. unfold Reqb. destruct (Req_dec_T x y); [contradiction | reflexivity]. Qed.

Lemma Rleb_true (x y : R) : x <= y -> Rleb x y = true.
Proof. intros H. unfold Rleb. destruct (Rle_dec x y); [reflexivity | contradiction]. Qed.

Lemma Rleb_false (x y : R) : y < x -> Rleb x y = false.
Proof. intros H. unfold Rleb. destruct (Rle_dec x y); [lra | reflexivity]. Qed.

Lemma Rltb_true (x y : R) : x < y -> Rltb x y = true.
Proof. intros H. unfold Rltb. destruct (Rlt_dec x y); [reflexivity | contradiction]. Qed.

Lemma Rltb_false (x y : R) : y <= x -> Rltb x y = false.
Proof. intros H. unfold Rltb. destruct (Rlt_dec x y); [lra | reflexivity]. Qed.

Lemma pydiv_ok (x y : R) : y <> 0 -> pydiv x y = Ok (x / y).
Proof. intros H. unfold pydiv. now rewrite Reqb_false. Qed.

Lemma pydiv_zero (x : R) : pydiv x 0 = Raise ZeroDivisionError.
Proof. unfold pydiv. now rewrite Reqb_true. Qed.

Lemma bind_ok {A B : Type} (a : A) (k : A -> result B) : bind (Ok a) k = k a.
Proof. reflexivity. Qed.

(** A decimal literal is the quotient of two integers. *)
Ltac decimals :=
  unfold Q2R in *; cbn [QArith_base.Qnum QArith_base.Qden] in *.

(** Guards and divisions whose outcome arithmetic decides. *)
Ltac nonzero :=
  first [ lra | apply Rmult_integral_contrapositive_currified; lra ].

Ltac settle_guards :=
  repeat first
    [ rewrite bind_ok
    | match goal with
      | |- context [Reqb ?a ?b] =>
          first [ rewrite (Reqb_false a b) by nonzero
                | rewrite (Reqb_true a b) by lra ]
      | |- context [Rleb ?a ?b] =>
          first [ rewrite (Rleb_false a b) by lra
                | rewrite (Rleb_true a b) by lra ]
      | |- context [Rltb ?a ?b] =>
          first [ rewrite (Rltb_false a b) by lra
                | rewrite (Rltb_true a b) by lra ]
      | |- context [pydiv ?a ?b] => rewrite (pydiv_ok a b) by nonzero
      end ];
  cbn [negb].

(** The polynomial algebra on given coefficients. *)
Ltac run_tf :=
  unfold tf_add, tf_mul, feedback, all_zero, tf, to_tf, polymul, polyadd,
    pad_left;
  repeat (progress (cbn; settle_guards)).

(** ** The open-loop rules *)

Lemma zn_open_loop_value (k_p tau theta : R) :
  k_p <> 0 -> 0 < theta ->
  ziegler_nichols_open_loop k_p tau theta =
    Ok (mkPID (1.2 * tau / (k_p * theta))
              (1.2 * tau / (k_p * theta) / (2.0 * theta))
              (1.2 * tau / (k_p * theta) * (0.5 * theta))).
Proof.
  intros HK Hth. unfold ziegler_nichols_open_loop.
  settle_guards. reflexivity.
Qed.

Lemma zn_open_loop_example :
  ziegler_nichols_open_loop 1.5 4.0 1.0 = Ok (mkPID 3.2 1.6 1.6).
Proof.
  rewrite zn_open_loop_value by lra.
  f_equal. f_equal; lra.
Qed.

(** C2.  For every Kp <> 0, tau > 0 and theta > 0 the Ziegler-Nichols
    open-loop rule returns the gains [Kp = Kc], [Ki = Kc / (2 theta)],
    [Kd = Kc * 0.5 theta] with [Kc = 1.2 tau / (Kp theta)]; at
    (Kp, tau, theta) = (1.5, 4.0, 1.0) these are 3.2, 1.6 and 1.6. *)
Theorem zn_open_loop_gains :
  (forall k_p tau theta : R,
      k_p <> 0 -> 0 < tau -> 0 < theta ->
      let Kc := 1.2 * tau / (k_p * theta) in
      ziegler_nichols_open_loop k_p tau theta =
        Ok (mkPID Kc (Kc / (2 * theta)) (Kc * (0.5 * theta))))
  /\ ziegler_nichols_open_loop 1.5 4.0 1.0 = Ok (mkPID 3.2 1.6 1.6).
Proof.
  split.
  - intros k_p tau theta HK _ Hth Kc. subst Kc.
    rewrite zn_open_loop_value by assumption.
    do 2 f_equal. decimals. field. split; lra.
  - apply zn_open_loop_example.
Qed.

Lemma zn_open_loop_gains_witness :
  1.5 <> 0 /\ 0 < 4.0 /\ 0 < 1.0 /\
  ziegler_nichols_open_loop 1.5 4.0 1.0 =
    Ok (mkPID (1.2 * 4.0 / (1.5 * 1.0))
              (1.2 * 4.0 / (1.5 * 1.0) / (2 * 1.0))
              (1.2 * 4.0 / (1.5 * 1.0) * (0.5 * 1.0))).
Proof.
  assert (H1 : 1.5 <> 0) by lra.
  assert (H2 : 0 < 4.0) by lra.
  assert (H3 : 0 < 1.0) by lra.
  repeat split; try assumption.
  exact (proj1 zn_open_loop_gains 1.5 4.0 1.0 H1 H2 H3).
Defined.

Lemma cohen_coon_ti_pos (tau theta : R) :
  0 < tau -> 0 < theta ->
  0 < theta * ((32 * tau + 6 * theta) / (13 * tau + 8 * theta)).
Proof.
  intros Ht Hth.
  apply Rmult_lt_0_compat; [assumption |].
  apply Rdiv_lt_0_compat; lra.
Qed.

Lemma cohen_coon_value (k_p tau theta : R) :
  k_p <> 0 -> 0 < tau -> 0 < theta ->
  cohen_coon k_p tau theta =
    Ok (mkPID
          (tau / (k_p * theta) * (4 / 3 + theta / (4 * tau)))
          (tau / (k_p * theta) * (4 / 3 + theta / (4 * tau))
             / (theta * ((32 * tau + 6 * theta) / (13 * tau + 8 * theta))))
          (tau / (k_p * theta) * (4 / 3 + theta / (4 * tau))
             * (theta * (4 * tau / (11 * tau + 2 * theta))))).
Proof.
  intros HK Ht Hth. unfold cohen_coon.
  settle_guards.
  pose proof (cohen_coon_ti_pos tau theta Ht Hth) as Hti.
  rewrite pydiv_ok by lra.
  reflexivity.
Qed.

(** C3.  For every Kp <> 0, tau > 0 and theta > 0 the Cohen-Coon rule
    returns [Kp = Kc], [Ki = Kc / Ti], [Kd = Kc * Td] with
    [Kc = (tau / (Kp theta)) (4/3 + theta / (4 tau))],
    [Ti = theta (32 tau + 6 theta) / (13 tau + 8 theta)] and
    [Td = theta 4 tau / (11 tau + 2 theta)]; at (1.5, 4.0, 1.0) the gains are
    67/18, 5/3 and 268/207, that is 3.722, 1.667 and 1.295 to three places. *)
Theorem cohen_coon_gains :
  (forall k_p tau theta : R,
      k_p <> 0 -> 0 < tau -> 0 < theta ->
      let Kc := (tau / (k_p * theta)) * (4 / 3 + theta / (4 * tau)) in
      let Ti := theta * (32 * tau + 6 * theta) / (13 * tau + 8 * theta) in
      let Td := theta * 4 * tau / (11 * tau + 2 * theta) in
      cohen_coon k_p tau theta = Ok (mkPID Kc (Kc / Ti) (Kc * Td)))
  /\ cohen_coon 1.5 4.0 1.0 = Ok (mkPID (67 / 18) (5 / 3) (268 / 207))
  /\ Rabs (67 / 18 - 3.722) < 0.0005
  /\ Rabs (5 / 3 - 1.667) < 0.0005
  /\ Rabs (268 / 207 - 1.295) < 0.0005.
Proof.
  split; [| split; [| repeat split]].
  - intros k_p tau theta HK Ht Hth Kc Ti Td. subst Kc Ti Td.
    rewrite cohen_coon_value by assumption.
    do 2 f_equal; field; repeat split; lra.
  - rewrite cohen_coon_value by lra.
    do 2 f_equal; decimals; field.
  - apply Rabs_def1; lra.
  - apply Rabs_def1; lra.
  - apply Rabs_def1; lra.
Qed.

Lemma cohen_coon_gains_witness :
  1.5 <> 0 /\ 0 < 4.0 /\ 0 < 1.0 /\
  cohen_coon 1.5 4.0 1.0 =
    Ok (mkPID
          (4.0 / (1.5 * 1.0) * (4 / 3 + 1.0 / (4 * 4.0)))
          (4.0 / (1.5 * 1.0) * (4 / 3 + 1.0 / (4 * 4.0))
             / (1.0 * (32 * 4.0 + 6 * 1.0) / (13 * 4.0 + 8 * 1.0)))
          (4.0 / (1.5 * 1.0) * (4 / 3 + 1.0 / (4 * 4.0))
             * (1.0 * 4 * 4.0 / (11 * 4.0 + 2 * 1.0)))).
Proof.
  assert (H1 : 1.5 <> 0) by lra.
  assert (H2 : 0 < 4.0) by lra.
  assert (H3 : 0 < 1.0) by lra.
  repeat split; try assumption.
  exact (proj1 cohen_coon_gains 1.5 4.0 1.0 H1 H2 H3).
Defined.

(** ** The IMC rule *)

Lemma imc_value (k_p tau theta tau_c : R) :
  k_p <> 0 -> 0 < tau_c -> 0 <= theta ->
  imc k_p tau theta tau_c =
    let kc := 1 / k_p * (tau + 0.5 * theta) / (tau_c + 0.5 * theta) in
    let ti := tau + 0.5 * theta in
    let td := if Reqb (2 * tau + theta) 0 then 0
              else tau * theta / (2 * tau + theta) in
    Ok (mkPID kc (if Reqb ti 0 then 0 else kc / ti) (kc * td)).
Proof.
  intros HK Hc Hth. unfold imc.
  settle_guards.
  destruct (Req_dec_T (2 * tau + theta) 0) as [Hz | Hnz].
  - rewrite (Reqb_true (2 * tau + theta)) by assumption.
    rewrite (Reqb_true (tau + 0.5 * theta)) by lra.
    reflexivity.
  - rewrite (Reqb_false (2 * tau + theta)) by assumption.
    rewrite (Reqb_false (tau + 0.5 * theta)) by lra.
    cbn [negb]. settle_guards. reflexivity.
Qed.

(** C4.  For every Kp <> 0 and tau_c > 0 (any tau, theta >= 0) the IMC rule
    returns [Kp = Kc], [Ki = Kc / Ti] (0 if [Ti = 0]), [Kd = Kc * Td] with
    [Kc = (1 / Kp) (tau + 0.5 theta) / (tau_c + 0.5 theta)],
    [Ti = tau + 0.5 theta] and [Td = tau theta / (2 tau + theta)] (0 if
    [2 tau + theta = 0]); at (Kp, tau, theta, tau_c) = (1.5, 4.0, 1.0, 1.5)
    the gains are 1.5, 1/3 and 2/3. *)
Theorem imc_gains :
  (forall k_p tau theta tau_c : R,
      k_p <> 0 -> 0 < tau_c -> 0 <= theta ->
      let Kc := (1 / k_p) * (tau + 0.5 * theta) / (tau_c + 0.5 * theta) in
      let Ti := tau + 0.5 * theta in
      let Td := if Reqb (2 * tau + theta) 0 then 0
                else tau * theta / (2 * tau + theta) in
      imc k_p tau theta tau_c =
        Ok (mkPID Kc (if Reqb Ti 0 then 0 else Kc / Ti) (Kc * Td)))
  /\ imc 1.5 4.0 1.0 1.5 = Ok (mkPID 1.5 (1 / 3) (2 / 3)).
Proof.
  split.
  - intros k_p tau theta tau_c HK Hc Hth. apply imc_value; assumption.
  - rewrite imc_value by lra. cbv zeta.
    rewrite !Reqb_false by lra.
    do 2 f_equal; decimals; field.
Qed.

Lemma imc_gains_witness :
  1.5 <> 0 /\ 0 < 1.5 /\ 0 <= 1.0 /\
  imc 1.5 4.0 1.0 1.5 =
    Ok (mkPID
          (1 / 1.5 * (4.0 + 0.5 * 1.0) / (1.5 + 0.5 * 1.0))
          (if Reqb (4.0 + 0.5 * 1.0) 0 then 0
           else 1 / 1.5 * (4.0 + 0.5 * 1.0) / (1.5 + 0.5 * 1.0)
                / (4.0 + 0.5 * 1.0))
          (1 / 1.5 * (4.0 + 0.5 * 1.0) / (1.5 + 0.5 * 1.0)
           * (if Reqb (2 * 4.0 + 1.0) 0 then 0
              else 4.0 * 1.0 / (2 * 4.0 + 1.0)))).
Proof.
  assert (H1 : 1.5 <> 0) by lra.
  assert (H2 : 0 < 1.5) by lra.
  assert (H3 : 0 <= 1.0) by lra.
  repeat split; try assumption.
  exact (proj1 imc_gains 1.5 4.0 1.0 1.5 H1 H2 H3).
Defined.

(** ** Zero dead time *)

Lemma zn_open_loop_no_dead_time (k_p tau theta : R) :
  k_p <> 0 -> theta <= 0 ->
  ziegler_nichols_open_loop k_p tau theta =
    Raise (ValueError Msg.zn_open_no_dead_time).
Proof.
  intros HK Hth. unfold ziegler_nichols_open_loop.
  now rewrite Reqb_false, Rleb_true.
Qed.

Lemma cohen_coon_no_dead_time (k_p tau theta : R) :
  k_p <> 0 -> theta <= 0 ->
  cohen_coon k_p tau theta = Raise (ValueError Msg.cohen_coon_no_dead_time).
Proof.
  intros HK Hth. unfold cohen_coon.
  now rewrite Reqb_false, Rleb_true.
Qed.

(** A zero process gain is an invalid parameter for the three rules. *)
Lemma zero_process_gain (tau theta tau_c : R) :
  ziegler_nichols_open_loop 0 tau theta = Raise (ValueError Msg.gain_zero)
  /\ cohen_coon 0 tau theta = Raise (ValueError Msg.gain_zero)
  /\ imc 0 tau theta tau_c = Raise (ValueError Msg.gain_zero)
  /\ is_invalid_parameter (ValueError Msg.gain_zero) = true.
Proof.
  unfold ziegler_nichols_open_loop, cohen_coon, imc.
  rewrite (Reqb_true 0 0) by reflexivity. repeat split.
Qed.

(** Without the time constant, Cohen-Coon divides by zero. *)
Lemma cohen_coon_zero_tau (k_p theta : R) :
  k_p <> 0 -> 0 < theta ->
  cohen_coon k_p 0 theta = Raise ZeroDivisionError.
Proof.
  intros HK Hth. unfold cohen_coon.
  rewrite Reqb_false, Rleb_false by lra.
  rewrite (pydiv_ok 0), (pydiv_ok 4) by nonzero.
  rewrite Rmult_0_r, pydiv_zero. reflexivity.
Qed.

(** [imc] has no guard on the dead time: whatever it raises is not a
    [NotApplicable] error. *)
Lemma imc_never_not_applicable (k_p tau theta tau_c : R) :
  ~ fails_not_applicable (imc k_p tau theta tau_c).
Proof.
  unfold imc, pydiv.
  repeat match goal with
         | |- context [if ?b then _ else _] => destruct b
         end; cbn; auto; discriminate.
Qed.

(** C1, as the claim has it, fails: at (Kp, tau, theta, tau_c) =
    (1.5, 4.0, 0, 1.5) the IMC rule returns the gains 16/9, 4/9 and 0. *)
Lemma imc_zero_dead_time_counterexample :
  1.5 <> 0 /\ 0 < 4.0 /\
  imc 1.5 4.0 0 1.5 = Ok (mkPID (16 / 9) (4 / 9) 0) /\
  ~ fails_not_applicable (imc 1.5 4.0 0 1.5).
Proof.
  assert (E : imc 1.5 4.0 0 1.5 = Ok (mkPID (16 / 9) (4 / 9) 0)).
  { rewrite imc_value by lra. cbv zeta.
    rewrite !Reqb_false by lra.
    do 2 f_equal; decimals; field. }
  repeat split; try lra.
  - exact E.
  - rewrite E. cbn. auto.
Qed.

(** C1, amended.  For every valid FOPDT parameter set (Kp <> 0, tau > 0)
    with dead time theta = 0, Ziegler-Nichols open-loop and Cohen-Coon fail
    with NotApplicable, but IMC does not: with tau_c > 0 it returns the gains
    [Kp = tau / (Kp tau_c)], [Ki = 1 / (Kp tau_c)], [Kd = 0]. *)
Theorem zero_dead_time_rules (k_p tau tau_c : R) :
  k_p <> 0 -> 0 < tau -> 0 < tau_c ->
  fails_not_applicable (ziegler_nichols_open_loop k_p tau 0)
  /\ fails_not_applicable (cohen_coon k_p tau 0)
  /\ imc k_p tau 0 tau_c =
       Ok (mkPID (tau / (k_p * tau_c)) (1 / (k_p * tau_c)) 0).
Proof.
  intros HK Ht Hc. repeat split.
  - rewrite zn_open_loop_no_dead_time by lra. reflexivity.
  - rewrite cohen_coon_no_dead_time by lra. reflexivity.
  - rewrite imc_value by lra. cbv zeta.
    rewrite !Reqb_false by lra.
    do 2 f_equal; decimals; field; repeat split; lra.
Qed.

Lemma zero_dead_time_rules_witness :
  fails_not_applicable (ziegler_nichols_open_loop 1.5 4.0 0)
  /\ fails_not_applicable (cohen_coon 1.5 4.0 0)
  /\ imc 1.5 4.0 0 1.5 =
       Ok (mkPID (4.0 / (1.5 * 1.5)) (1 / (1.5 * 1.5)) 0).
Proof.
  apply (zero_dead_time_rules 1.5 4.0 1.5); lra.
Defined.

(** ** The closed-loop rule *)

Section ClosedLoop.

Variable ct : Control.

Lemma zn_closed_loop_unfold (g : TransferFunction) :
  ziegler_nichols_closed_loop ct g =
    let gm := gain_margin_of ct g in
    let wg := phase_crossover_frequency_of ct g in
    if np_isinf gm || np_leb gm (Fin 0) then
      Raise (ValueError Msg.no_ultimate_gain)
    else if np_leb wg (Fin 0) then
      Raise (ValueError Msg.no_ultimate_period)
    else
      let tu := np_div (Fin (2 * PI)) wg in
      let kc := np_mul (Fin 0.6) gm in
      Ok (mkPID kc (np_div kc (np_div tu (Fin 2.0)))
                (np_mul kc (np_div tu (Fin 8.0)))).
Proof.
  unfold ziegler_nichols_closed_loop, gain_margin_of,
    phase_crossover_frequency_of.
  destruct (margin ct g) as [[[gm pm] wg] wp]. reflexivity.
Qed.

Lemma zn_closed_loop_fails_iff (g : TransferFunction) :
  fails_not_applicable (ziegler_nichols_closed_loop ct g) <->
  no_ultimate_point (gain_margin_of ct g) (phase_crossover_frequency_of ct g).
Proof.
  rewrite zn_closed_loop_unfold. cbv zeta. unfold no_ultimate_point.
  destruct (np_isinf (gain_margin_of ct g)) eqn:Einf; cbn [orb].
  - cbn. tauto.
  - destruct (np_leb (gain_margin_of ct g) (Fin 0)) eqn:Ele.
    + cbn. tauto.
    + destruct (np_leb (phase_crossover_frequency_of ct g) (Fin 0)) eqn:Ew.
      * cbn. tauto.
      * cbn. split; [tauto |]. intros [H | [H | H]]; discriminate.
Qed.

Lemma zn_closed_loop_returns (g : TransferFunction) :
  ~ no_ultimate_point (gain_margin_of ct g) (phase_crossover_frequency_of ct g) ->
  let Ku := gain_margin_of ct g in
  let Tu := np_div (Fin (2 * PI)) (phase_crossover_frequency_of ct g) in
  let Kc := np_mul (Fin 0.6) Ku in
  ziegler_nichols_closed_loop ct g =
    Ok (mkPID Kc (np_div Kc (np_div Tu (Fin 2))) (np_mul Kc (np_div Tu (Fin 8)))).
Proof.
  intros Hno. rewrite zn_closed_loop_unfold. cbv zeta.
  unfold no_ultimate_point in Hno.
  destruct (np_isinf (gain_margin_of ct g)) eqn:Einf; [tauto |].
  destruct (np_leb (gain_margin_of ct g) (Fin 0)) eqn:Ele; [tauto |].
  destruct (np_leb (phase_crossover_frequency_of ct g) (Fin 0)) eqn:Ew; [tauto |].
  cbn [orb].
  replace 2.0 with 2 by lra. replace 8.0 with 8 by lra. reflexivity.
Qed.

Lemma zn_closed_loop_finite (g : TransferFunction) (ku w : R) :
  gain_margin_of ct g = Fin ku ->
  phase_crossover_frequency_of ct g = Fin w ->
  0 < ku -> 0 < w ->
  ziegler_nichols_closed_loop ct g =
    Ok (mkPID (Fin (0.6 * ku))
              (Fin (0.6 * ku / (2 * PI / w / 2)))
              (Fin (0.6 * ku * (2 * PI / w / 8)))).
Proof.
  intros Hgm Hwg Hku Hw. rewrite zn_closed_loop_unfold, Hgm, Hwg.
  cbn -[PI]. settle_guards. cbn -[PI].
  replace 2.0 with 2 by lra. replace 8.0 with 8 by lra.
  settle_guards.
  assert (Htu : 2 * PI / w / 2 <> 0).
  { pose proof PI_RGT_0 as Hpi.
    assert (0 < 2 * PI / w / 2); [| lra].
    apply Rdiv_lt_0_compat; [| lra].
    apply Rdiv_lt_0_compat; lra. }
  rewrite (Reqb_false _ 0 Htu). settle_guards. reflexivity.
Qed.

(** Gains that are real numbers come from a finite ultimate point. *)
Lemma zn_closed_loop_finite_inv (g : TransferFunction) (gains : PID npfloat) :
  ziegler_nichols_closed_loop ct g = Ok gains ->
  is_finite (Kp gains) -> is_finite (Ki gains) ->
  exists ku w,
    gain_margin_of ct g = Fin ku /\ phase_crossover_frequency_of ct g = Fin w
    /\ 0 < ku /\ 0 < w.
Proof.
  rewrite zn_closed_loop_unfold. cbv zeta.
  destruct (gain_margin_of ct g) as [ku | | |] eqn:Egm; cbn [np_isinf orb];
    try discriminate.
  - cbn [np_leb]. unfold Rleb at 1.
    destruct (Rle_dec ku 0) as [Hle | Hgt]; [discriminate |].
    destruct (phase_crossover_frequency_of ct g) as [w | | |] eqn:Ewg;
      cbn [np_leb]; try discriminate.
    + unfold Rleb at 1.
      destruct (Rle_dec w 0) as [Hwle | Hwgt]; [discriminate |].
      intros _ _ _. exists ku, w. repeat split; lra.
    + intros H; injection H as <-. cbn -[PI].
      intros _. settle_guards. cbn. intros [].
    + intros H; injection H as <-. cbn. intros _ [].
  - cbn [np_leb].
    destruct (np_leb (phase_crossover_frequency_of ct g) (Fin 0));
      [discriminate |].
    intros H; injection H as <-. cbn. intros [].
Qed.


End ClosedLoop.

(** The plant 1/(s+1): its response never is a negative real number. *)
Lemma first_order_lag : tf [1] [1; 1] = mkTF [1] [1; 1].
Proof.
  unfold tf. cbn. now rewrite Reqb_false by lra.
Qed.

Lemma first_order_lag_no_crossover (w : R) :
  ~ phase_crossover (tf [1] [1; 1]) w.
Proof.
  rewrite first_order_lag. unfold phase_crossover. cbn.
  intros (_ & _ & Hre). lra.
Qed.

(** The plant 1/(s+1)^3 has a phase crossover at the frequency sqrt 3,
    where its response is -1/8. *)
Lemma third_order_crossover :
  phase_crossover (tf [1] [1; 3; 3; 1]) (sqrt 3).
Proof.
  unfold phase_crossover. run_tf.
  assert (H3 : sqrt 3 * sqrt 3 = 3) by (apply sqrt_sqrt; lra).
  set (w := sqrt 3) in *.
  repeat split.
  - intros E. apply (f_equal re) in E. cbn in E.
    match type of E with
    | ?l = _ => replace l with (1 - 3 * (w * w)) in E by ring
    end.
    rewrite H3 in E. lra.
  - match goal with
    | |- ?l = 0 => replace l with (w * (w * w - 3)) by ring
    end.
    rewrite H3. ring.
  - match goal with
    | |- ?l < 0 => replace l with (1 - 3 * (w * w)) by ring
    end.
    rewrite H3. lra.
Qed.

(** C5.  The Ziegler-Nichols closed-loop rule fails with NotApplicable if and
    only if the gain margin Ku of the plant is infinite or not positive, or
    the phase-crossover frequency is not positive; otherwise it returns
    [Kp = 0.6 Ku], [Ki = Kp / (Tu / 2)], [Kd = Kp Tu / 8] with
    [Tu = 2 pi / wpc].  For the plant 1/(s+1), which has no phase crossover,
    so that [control.margin] reports an infinite gain margin, it fails with
    NotApplicable. *)
Theorem zn_closed_loop_cases (ct : Control) :
  (forall g : TransferFunction,
      fails_not_applicable (ziegler_nichols_closed_loop ct g) <->
      no_ultimate_point (gain_margin_of ct g)
                        (phase_crossover_frequency_of ct g))
  /\ (forall g : TransferFunction,
         ~ no_ultimate_point (gain_margin_of ct g)
                             (phase_crossover_frequency_of ct g) ->
         let Ku := gain_margin_of ct g in
         let Tu := np_div (Fin (2 * PI)) (phase_crossover_frequency_of ct g) in
         let Kc := np_mul (Fin 0.6) Ku in
         ziegler_nichols_closed_loop ct g =
           Ok (mkPID Kc (np_div Kc (np_div Tu (Fin 2)))
                     (np_mul Kc (np_div Tu (Fin 8)))))
  /\ (forall (g : TransferFunction) (ku wpc : R),
         gain_margin_of ct g = Fin ku ->
         phase_crossover_frequency_of ct g = Fin wpc ->
         0 < ku -> 0 < wpc ->
         let Tu := 2 * PI / wpc in
         ziegler_nichols_closed_loop ct g =
           Ok (mkPID (Fin (0.6 * ku))
                     (Fin (0.6 * ku / (Tu / 2)))
                     (Fin (0.6 * ku * (Tu / 8)))))
  /\ ((forall g : TransferFunction,
          (forall w : R, ~ phase_crossover g w) ->
          gain_margin_of ct g = PInf) ->
      fails_not_applicable (ziegler_nichols_closed_loop ct (tf [1] [1; 1]))).
Proof.
  split; [| split; [| split]].
  - apply zn_closed_loop_fails_iff.
  - apply zn_closed_loop_returns.
  - intros g ku wpc Hgm Hwg Hku Hw Tu. subst Tu.
    apply zn_closed_loop_finite; assumption.
  - intros Hmargin. apply zn_closed_loop_fails_iff.
    left. rewrite Hmargin; [reflexivity |].
    apply first_order_lag_no_crossover.
Qed.

Lemma zn_closed_loop_cases_witness :
  fails_not_applicable
    (ziegler_nichols_closed_loop no_crossover_control (tf [1] [1; 1]))
  /\ ziegler_nichols_closed_loop third_order_control (tf [1] [1; 3; 3; 1]) =
       Ok (mkPID (Fin (0.6 * 8))
                 (Fin (0.6 * 8 / (2 * PI / sqrt 3 / 2)))
                 (Fin (0.6 * 8 * (2 * PI / sqrt 3 / 8)))).
Proof.
  split.
  - apply (proj2 (proj2 (proj2 (zn_closed_loop_cases no_crossover_control)))).
    intros g _. reflexivity.
  - apply (proj1 (proj2 (proj2 (zn_closed_loop_cases third_order_control)))
             (tf [1] [1; 3; 3; 1]) 8 (sqrt 3)).
    + reflexivity.
    + reflexivity.
    + lra.
    + apply sqrt_lt_R0. lra.
Defined.

(** ** The two Ziegler-Nichols rules set [Ti = 4 Td] *)

Lemma zn_open_loop_inv (k_p tau theta : R) (gains : PID R) :
  ziegler_nichols_open_loop k_p tau theta = Ok gains ->
  k_p <> 0 /\ 0 < theta.
Proof.
  unfold ziegler_nichols_open_loop, Reqb, Rleb.
  destruct (Req_dec_T k_p 0) as [HK | HK]; [discriminate |].
  destruct (Rle_dec theta 0) as [Hth | Hth]; [discriminate |].
  intros _. split; [assumption | lra].
Qed.



Lemma third_order_closed_loop :
  ziegler_nichols_closed_loop third_order_control (tf [1] [1; 3; 3; 1]) =
    Ok (mkPID (Fin (0.6 * 8))
              (Fin (0.6 * 8 / (2 * PI / sqrt 3 / 2)))
              (Fin (0.6 * 8 * (2 * PI / sqrt 3 / 8)))).
Proof.
  apply zn_closed_loop_finite; try reflexivity; [lra |].
  apply sqrt_lt_R0. lra.
Qed.



Module Binary64Facts.
Import PrimFloat.
#[local] Set Warnings "-inexact-float".


End Binary64Facts.

(** ** Stability margins *)

Lemma reported_margin (x : npfloat) :
  ((if negb (np_isinf x) then MNumber x else stable) = stable
     <-> np_isinf x = true)
  /\ (np_isinf x = false ->
      (if negb (np_isinf x) then MNumber x else stable) = MNumber x).
Proof.
  destruct (np_isinf x); cbn; repeat split; auto; discriminate.
Qed.

Lemma analyze_frequency_domain_unfold (ct : Control) (sys_tf : TransferFunction)
    (pid_params : PID R) :
  analyze_frequency_domain ct sys_tf pid_params =
    let open_loop := tf_mul (get_pid_controller pid_params) sys_tf in
    let gm := gain_margin_of ct open_loop in
    let pm := phase_margin_of ct open_loop in
    mkMargins (if negb (np_isinf gm) then MNumber gm else stable)
              (if negb (np_isinf pm) then MNumber pm else stable).
Proof.
  unfold analyze_frequency_domain, gain_margin_of, phase_margin_of.
  destruct (margin ct _) as [[[gm pm] wg] wp]. reflexivity.
Qed.

(** C9.  [analyze_frequency_domain] reports, for the gain margin and for the
    phase margin independently, the sentinel exactly when the margin that
    [control.margin] computes on the open loop (controller times plant) is
    infinite, and the margin itself otherwise: in particular the real number
    when the margin is one. *)
Theorem frequency_domain_sentinel (ct : Control) (sys_tf : TransferFunction)
    (pid_params : PID R) :
  let open_loop := tf_mul (get_pid_controller pid_params) sys_tf in
  let gm := gain_margin_of ct open_loop in
  let pm := phase_margin_of ct open_loop in
  let r := analyze_frequency_domain ct sys_tf pid_params in
  (GainMargin r = stable <-> np_isinf gm = true)
  /\ (np_isinf gm = false -> GainMargin r = MNumber gm)
  /\ (forall x : R, gm = Fin x -> GainMargin r = MNumber (Fin x))
  /\ (PhaseMargin r = stable <-> np_isinf pm = true)
  /\ (np_isinf pm = false -> PhaseMargin r = MNumber pm)
  /\ (forall x : R, pm = Fin x -> PhaseMargin r = MNumber (Fin x)).
Proof.
  intros open_loop gm pm r. subst r.
  rewrite analyze_frequency_domain_unfold. cbv zeta.
  fold open_loop. fold gm. fold pm. cbn [GainMargin PhaseMargin].
  destruct (reported_margin gm) as [Hg1 Hg2].
  destruct (reported_margin pm) as [Hp1 Hp2].
  repeat split; try tauto.
  - intros x Hx. rewrite <- Hx. apply Hg2. now rewrite Hx.
  - intros x Hx. rewrite <- Hx. apply Hp2. now rewrite Hx.
Qed.

Lemma frequency_domain_sentinel_witness :
  analyze_frequency_domain no_crossover_control (tf [1] [1; 1]) (mkPID 4 0 0)
    = mkMargins stable stable
  /\ analyze_frequency_domain third_order_control (tf [1] [1; 3; 3; 1])
       (mkPID 4 0 0)
     = mkMargins (MNumber (Fin 8)) stable.
Proof.
  split.
  - destruct (frequency_domain_sentinel no_crossover_control (tf [1] [1; 1])
                (mkPID 4 0 0)) as (Hg & _ & _ & Hp & _).
    destruct (analyze_frequency_domain _ _ _) as [g p]. cbn in Hg, Hp.
    f_equal; [apply Hg | apply Hp]; reflexivity.
  - destruct (frequency_domain_sentinel third_order_control
                (tf [1] [1; 3; 3; 1]) (mkPID 4 0 0))
      as (_ & _ & Hg & Hp & _).
    destruct (analyze_frequency_domain _ _ _) as [g p]. cbn in Hg, Hp.
    f_equal; [apply Hg | apply Hp]; reflexivity.
Defined.

(** ** The response without controller action *)

Lemma zero_controller :
  forallb (fun c => Reqb c 0) (num (get_pid_controller (mkPID 0 0 0))) = true.
Proof.
  unfold get_pid_controller. cbn [Kp Ki Kd].
  rewrite (Reqb_true 0 0) by reflexivity. cbn.
  now rewrite Reqb_true by lra.
Qed.

(** The controller is the zero model exactly for the gains 0, 0 and 0. *)
Lemma zero_controller_iff (pid_params : PID R) :
  forallb (fun c => Reqb c 0) (num (get_pid_controller pid_params)) = true
  <-> Kp pid_params = 0 /\ Ki pid_params = 0 /\ Kd pid_params = 0.
Proof.
  destruct pid_params as [kp ki kd]. cbn [Kp Ki Kd].
  unfold get_pid_controller. cbn [Kp Ki Kd].
  destruct (Req_dec_T kp 0) as [-> | Hp];
    destruct (Req_dec_T ki 0) as [-> | Hi];
    destruct (Req_dec_T kd 0) as [-> | Hd];
    run_tf.
  all: split; [intros H | intros (? & ? & ?)]; try discriminate;
    try (repeat split; reflexivity); try contradiction; try lra.
Qed.

(** C7.  For every plant, [analyze_step_response] with the gains
    [Kp = Ki = Kd = 0] does not raise: it returns the two samples at the
    times 0 and 1 with the outputs 0 and 0, and the five step
    characteristics RiseTime, SettlingTime, Overshoot, Peak and PeakTime all
    not a number. *)
Theorem zero_gains_step_response (ct : Control) (sys_tf : TransferFunction) :
  analyze_step_response ct sys_tf (mkPID 0 0 0) =
    Ok (mkStepResponse [0; 1] [0; 0]
          [("RiseTime", NaN); ("SettlingTime", NaN); ("Overshoot", NaN);
           ("Peak", NaN); ("PeakTime", NaN)]%string).
Proof.
  unfold analyze_step_response.
  rewrite zero_controller. reflexivity.
Qed.

(** ** [sorted] sorts *)

Lemma insert_sorted_perm (x : R) (l : list R) :
  Permutation (x :: l) (insert_sorted x l).
Proof.
  induction l as [| y l IH]; cbn.
  - reflexivity.
  - destruct (Rleb x y).
    + reflexivity.
    + rewrite perm_swap. now apply perm_skip.
Qed.

Lemma sorted_perm (l : list R) : Permutation l (sorted l).
Proof.
  induction l as [| x l IH]; cbn.
  - constructor.
  - rewrite <- insert_sorted_perm. now apply perm_skip.
Qed.

Lemma insert_sorted_ordered (x : R) (l : list R) :
  StronglySorted Rle l -> StronglySorted Rle (insert_sorted x l).
Proof.
  induction 1 as [| y l Hl IH Hy]; cbn.
  - repeat constructor.
  - unfold Rleb. destruct (Rle_dec x y) as [Hxy | Hxy].
    + constructor; [now constructor |].
      constructor; [assumption |].
      eapply Forall_impl; [| exact Hy]. intros z Hz. cbn in Hz. lra.
    + constructor; [assumption |].
      apply (Permutation_Forall (insert_sorted_perm x l)).
      constructor; [lra | assumption].
Qed.

Lemma sorted_ordered (l : list R) : StronglySorted Rle (sorted l).
Proof.
  induction l as [| x l IH]; cbn.
  - constructor.
  - now apply insert_sorted_ordered.
Qed.

(** The head of the sorted list is a least element of the list. *)
Lemma sorted_head (l : list R) (h : R) (t : list R) :
  sorted l = h :: t ->
  In h l /\ forall x, In x l -> h <= x.
Proof.
  intros E. pose proof (sorted_perm l) as HP.
  pose proof (sorted_ordered l) as HS. rewrite E in HP, HS.
  split.
  - apply (Permutation_in _ (Permutation_sym HP)). now left.
  - intros x Hx. apply (Permutation_in _ HP) in Hx.
    destruct Hx as [<- | Hx]; [lra |].
    inversion HS as [| ? ? _ Hall]; subst.
    rewrite Forall_forall in Hall. now apply Hall.
Qed.

Lemma sorted_nil_inv (l : list R) : sorted l = [] -> l = [].
Proof.
  intros E. pose proof (sorted_perm l) as HP. rewrite E in HP.
  now apply Permutation_nil, Permutation_sym.
Qed.

(** ** The simulation horizon *)

Lemma decaying_filter (ps : list complex) (p : complex) :
  In p (filter (fun p => Rltb (re p) (-1e-6)) ps) <-> In p ps /\ decaying p.
Proof.
  rewrite filter_In. unfold decaying, Rltb.
  destruct (Rlt_dec (re p) (-1e-6)); intuition discriminate.
Qed.

Lemma T_final_horizon (ct : Control) (g : TransferFunction) :
  horizon (poles ct g) (T_final_of ct g).
Proof.
  unfold T_final_of, horizon.
  destruct (poles ct g) as [ps | e]; [| reflexivity].
  destruct ps as [| p0 ps'] eqn:Eps.
  - right. cbn. split; [intros p [] | reflexivity].
  - rewrite <- Eps. replace (length ps =? 0)%nat with false by now subst.
    clear Eps p0 ps'.
    destruct (sorted _) as [| r rest] eqn:Es.
    + right. split; [| reflexivity].
      apply sorted_nil_inv, map_eq_nil in Es.
      intros p Hp Hd.
      assert (Hin : In p (filter (fun p => Rltb (re p) (-1e-6)) ps))
        by now apply decaying_filter.
      now rewrite Es in Hin.
    + left. exists r. split; [| reflexivity].
      apply sorted_head in Es. destruct Es as [Hin Hmin].
      split.
      * apply in_map_iff in Hin. destruct Hin as (p & Hr & Hp).
        apply decaying_filter in Hp. exists p. intuition.
      * intros p Hp Hd. apply Hmin.
        apply in_map_iff. exists p. split; [reflexivity |].
        now apply decaying_filter.
Qed.

(** ** [linspace] *)

Lemma linspace_eq (a b : R) (n : nat) :
  linspace a b (S (S n)) =
    map (fun i => INR i * ((b - a) / INR (S n)) + a) (seq 0 (S n)) ++ [b].
Proof.
  unfold linspace.
  replace (1 <? S (S n))%nat with true by reflexivity.
  replace (S (S n) - 1)%nat with (S n) by lia.
  rewrite (seq_S (S n) 0), map_app. cbn [map].
  now rewrite removelast_last.
Qed.

Lemma linspace_length (a b : R) (n : nat) : length (linspace a b n) = n.
Proof.
  destruct n as [| [| n]].
  - reflexivity.
  - reflexivity.
  - rewrite linspace_eq, length_app, length_map, length_seq. cbn. lia.
Qed.

Lemma linspace_nth (a b : R) (n i : nat) :
  (1 < n)%nat -> (i < n)%nat ->
  nth i (linspace a b n) 0 = a + INR i * (b - a) / INR (n - 1).
Proof.
  intros Hn Hi. destruct n as [| [| n]]; try lia.
  rewrite linspace_eq.
  replace (S (S n) - 1)%nat with (S n) by lia.
  assert (HS : INR (S n) <> 0) by (apply not_0_INR; lia).
  set (f := fun i : nat => INR i * ((b - a) / INR (S n)) + a).
  destruct (Nat.eq_dec i (S n)) as [-> | Hne].
  - rewrite app_nth2; rewrite length_map, length_seq; [| lia].
    rewrite Nat.sub_diag. cbn [nth]. field. exact HS.
  - rewrite app_nth1 by (rewrite length_map, length_seq; lia).
    rewrite (nth_indep _ 0 (f 0%nat))
      by (rewrite length_map, length_seq; lia).
    rewrite map_nth, seq_nth by lia.
    subst f. cbn [Nat.add]. field. exact HS.
Qed.

Lemma INR_1499 : INR (1500 - 1) = 1499.
Proof.
  rewrite INR_IZR_INZ. f_equal.
Qed.

(** ** The closed-loop step response *)

Lemma analyze_step_response_nonzero (ct : Control) (sys_tf : TransferFunction)
    (pid_params : PID R) :
  forallb (fun c => Reqb c 0) (num (get_pid_controller pid_params)) = false ->
  analyze_step_response ct sys_tf pid_params =
    (closed_loop <-
       feedback (tf_mul (get_pid_controller pid_params) sys_tf) (tf [1] [1]) ;;
     let time_vec := linspace 0 (T_final_of ct closed_loop) 1500 in
     ty <- step_response ct closed_loop time_vec ;;
     inf <- step_info ct closed_loop time_vec 0.02 ;;
     Ok (mkStepResponse (fst ty) (snd ty) inf)).
Proof.
  intros Hnz. unfold analyze_step_response. now rewrite Hnz.
Qed.

(** The controller with the gains -1, 0 and -1 is [-(s + 1)]: it is not the
    zero model, and on the plant 1/(s+1) the closed-loop denominator
    [(s + 1) - (s + 1)] is identically zero. *)
Lemma cancelling_controller_nonzero :
  forallb (fun c => Reqb c 0) (num (get_pid_controller (mkPID (-1) 0 (-1))))
  = false.
Proof.
  unfold get_pid_controller. cbn [Kp Ki Kd]. run_tf. reflexivity.
Qed.

Lemma cancelling_closed_loop :
  feedback (tf_mul (get_pid_controller (mkPID (-1) 0 (-1))) (tf [1] [1; 1]))
           (tf [1] [1])
  = Raise (ValueError ControlMsg.zero_denominator).
Proof.
  unfold get_pid_controller. cbn [Kp Ki Kd]. run_tf. reflexivity.
Qed.

(** C8, as the claim has it, fails: with the controller [-(s + 1)], which is
    not zero, on the plant 1/(s+1), [control.feedback] raises before the
    horizon is chosen, so that no horizon exists and nothing is sampled. *)
Lemma step_response_horizon_counterexample :
  forallb (fun c => Reqb c 0) (num (get_pid_controller (mkPID (-1) 0 (-1))))
  = false
  /\ forall ct : Control,
       analyze_step_response ct (tf [1] [1; 1]) (mkPID (-1) 0 (-1))
       = Raise (ValueError ControlMsg.zero_denominator).
Proof.
  split; [exact cancelling_controller_nonzero |].
  intros ct.
  rewrite analyze_step_response_nonzero by exact cancelling_controller_nonzero.
  now rewrite cancelling_closed_loop.
Qed.

(** C8, amended.  With a controller that is not zero,
    [analyze_step_response] first forms the closed loop; an error of
    [control.feedback] (closed-loop denominator identically zero) is raised
    to the caller.  When the closed loop is formed, the function simulates it
    over the horizon [T_final = 10 / r], where [r] is the smallest magnitude
    of the real part among the closed-loop poles whose real part is below
    -1e-6, and [T_final = 50] if there is no such pole, no pole at all, or
    pole extraction raises; the response is sampled at the 1500 evenly spaced
    times [i * T_final / 1499], from 0 to [T_final]. *)
Theorem step_response_horizon (ct : Control) (sys_tf : TransferFunction)
    (pid_params : PID R) :
  forallb (fun c => Reqb c 0) (num (get_pid_controller pid_params)) = false ->
  let loop :=
    feedback (tf_mul (get_pid_controller pid_params) sys_tf) (tf [1] [1]) in
  (forall e : exn,
      loop = Raise e -> analyze_step_response ct sys_tf pid_params = Raise e)
  /\ (forall closed_loop : TransferFunction,
         loop = Ok closed_loop ->
         exists T_final time_vec : _,
           analyze_step_response ct sys_tf pid_params =
             (ty <- step_response ct closed_loop time_vec ;;
              inf <- step_info ct closed_loop time_vec 0.02 ;;
              Ok (mkStepResponse (fst ty) (snd ty) inf))
           /\ horizon (poles ct closed_loop) T_final
           /\ length time_vec = 1500%nat
           /\ (forall i : nat, (i < 1500)%nat ->
                  nth i time_vec 0 = INR i * T_final / 1499)
           /\ nth 0 time_vec 0 = 0
           /\ nth 1499 time_vec 0 = T_final).
Proof.
  intros Hnz loop. subst loop. split.
  - intros e He.
    rewrite analyze_step_response_nonzero by assumption. now rewrite He.
  - intros closed_loop Hcl.
    exists (T_final_of ct closed_loop),
      (linspace 0 (T_final_of ct closed_loop) 1500).
    assert (Hnth : forall i : nat, (i < 1500)%nat ->
              nth i (linspace 0 (T_final_of ct closed_loop) 1500) 0 =
                INR i * T_final_of ct closed_loop / 1499).
    { intros i Hi. rewrite linspace_nth by lia. rewrite INR_1499. lra. }
    split; [| split; [| split; [| split; [| split]]]].
    + rewrite analyze_step_response_nonzero by assumption. now rewrite Hcl.
    + apply T_final_horizon.
    + apply linspace_length.
    + exact Hnth.
    + rewrite Hnth by lia. cbn [INR]. lra.
    + rewrite Hnth by lia.
      change 1499%nat with (1500 - 1)%nat. rewrite INR_1499. lra.
Qed.

Lemma proportional_controller_nonzero :
  forallb (fun c => Reqb c 0) (num (get_pid_controller (mkPID 1 0 0))) = false.
Proof.
  unfold get_pid_controller. cbn [Kp Ki Kd].
  rewrite (Reqb_true 0 0) by reflexivity. cbn.
  now rewrite Reqb_false by lra.
Qed.

(** The poles -0.5 +- j sqrt 7 / 2: the decay rate is 0.5, the horizon 20. *)
Lemma second_order_horizon (g : TransferFunction) :
  T_final_of second_order_control g = 20.
Proof.
  unfold T_final_of. cbn.
  settle_guards. cbn.
  replace (Rabs (-0.5)) with 0.5 by (rewrite Rabs_left; lra).
  cbn. settle_guards. lra.
Qed.

(** The plant 1/(s^2+s+1) under the proportional gain 1 closes to
    1/(s^2+s+2). *)
Lemma proportional_closed_loop :
  feedback (tf_mul (get_pid_controller (mkPID 1 0 0)) (tf [1] [1; 1; 1]))
           (tf [1] [1])
  = Ok (mkTF [1] [1; 1; 2]).
Proof.
  unfold get_pid_controller. cbn [Kp Ki Kd]. run_tf.
  do 2 f_equal; repeat (f_equal; try lra).
Qed.

Lemma step_response_horizon_witness :
  analyze_step_response second_order_control (tf [1] [1; 1]) (mkPID (-1) 0 (-1))
  = Raise (ValueError ControlMsg.zero_denominator)
  /\ exists T_final time_vec : _,
       analyze_step_response second_order_control (tf [1] [1; 1; 1])
         (mkPID 1 0 0) =
         (ty <- step_response second_order_control (mkTF [1] [1; 1; 2])
                  time_vec ;;
          inf <- step_info second_order_control (mkTF [1] [1; 1; 2])
                   time_vec 0.02 ;;
          Ok (mkStepResponse (fst ty) (snd ty) inf))
       /\ horizon (poles second_order_control (mkTF [1] [1; 1; 2])) T_final
       /\ length time_vec = 1500%nat
       /\ (forall i : nat, (i < 1500)%nat ->
              nth i time_vec 0 = INR i * T_final / 1499)
       /\ nth 0 time_vec 0 = 0
       /\ nth 1499 time_vec 0 = T_final.
Proof.
  split.
  - apply (proj1 (step_response_horizon second_order_control (tf [1] [1; 1])
                    (mkPID (-1) 0 (-1)) cancelling_controller_nonzero)).
    exact cancelling_closed_loop.
  - apply (proj2 (step_response_horizon second_order_control (tf [1] [1; 1; 1])
                    (mkPID 1 0 0) proportional_controller_nonzero)).
    exact proportional_closed_loop.
Defined.

(** ** The trapezoidal rule *)

Lemma sum_upto_ext (n : nat) (g h : nat -> R) :
  (forall i, (i < n)%nat -> g i = h i) -> sum_upto n g = sum_upto n h.
Proof.
  induction n as [| n IH]; intros Hgh; cbn.
  - reflexivity.
  - rewrite IH by (intros i Hi; apply Hgh; lia).
    rewrite (Hgh n) by lia. reflexivity.
Qed.

Lemma trapezoidal_rule_ext (n : nat) (t f f' : nat -> R) :
  (forall i, (i < n)%nat -> f i = f' i) ->
  trapezoidal_rule n t f = trapezoidal_rule n t f'.
Proof.
  intros Hf. unfold trapezoidal_rule. apply sum_upto_ext.
  intros i Hi. rewrite (Hf i), (Hf (S i)) by lia. reflexivity.
Qed.

Lemma fold_left_sum (l : list R) :
  fold_left Rplus l 0 = sum_upto (length l) (sample l).
Proof.
  induction l as [| x l IH] using rev_ind.
  - reflexivity.
  - rewrite fold_left_app, length_app, Nat.add_1_r. cbn [fold_left sum_upto].
    rewrite IH. f_equal.
    + apply sum_upto_ext. intros i Hi. unfold sample.
      now rewrite app_nth1.
    + unfold sample. now rewrite nth_middle.
Qed.

Lemma zip_with_length {A B C : Type} (f : A -> B -> C) (l : list A) (m : list B) :
  length (zip_with f l m) = Nat.min (length l) (length m).
Proof.
  revert m. induction l as [| a l IH]; intros [| b m]; cbn; auto.
Qed.

Lemma zip_with_sample (f : R -> R -> R) (l m : list R) (i : nat) :
  (i < length l)%nat -> (i < length m)%nat ->
  sample (zip_with f l m) i = f (sample l i) (sample m i).
Proof.
  unfold sample. revert m i.
  induction l as [| a l IH]; intros [| b m] [| i]; cbn; intros Hl Hm;
    try lia; auto.
  apply IH; lia.
Qed.

Lemma sample_tl (l : list R) (i : nat) : sample (tl l) i = sample l (S i).
Proof.
  unfold sample. destruct l; cbn; [now destruct i | reflexivity].
Qed.

Lemma removelast_length (l : list R) : length (removelast l) = (length l - 1)%nat.
Proof.
  rewrite removelast_firstn_len, length_firstn. lia.
Qed.

Lemma sample_removelast (l : list R) (i : nat) :
  (i < length l - 1)%nat -> sample (removelast l) i = sample l i.
Proof.
  intros Hi. unfold sample.
  rewrite removelast_firstn_len, nth_firstn.
  replace (i <? pred (length l))%nat with true; [reflexivity |].
  symmetry. apply Nat.ltb_lt. lia.
Qed.

Lemma sample_map (f : R -> R) (l : list R) (i : nat) :
  (i < length l)%nat -> sample (map f l) i = f (sample l i).
Proof.
  intros Hi. unfold sample.
  rewrite (nth_indep _ 0 (f 0)) by now rewrite length_map.
  apply map_nth.
Qed.

Lemma diff_length (x : list R) : length (diff x) = (length x - 1)%nat.
Proof.
  unfold diff. rewrite zip_with_length, length_tl, removelast_length. lia.
Qed.

Lemma diff_sample (x : list R) (i : nat) :
  (i < length x - 1)%nat -> sample (diff x) i = sample x (S i) - sample x i.
Proof.
  intros Hi. unfold diff.
  rewrite zip_with_sample by (rewrite ?length_tl, ?removelast_length; lia).
  now rewrite sample_tl, sample_removelast.
Qed.

(** [numpy.trapezoid] computes the trapezoidal rule over the grid. *)
Lemma trapezoid_rule (y x : list R) :
  length y = length x ->
  trapezoid y x = trapezoidal_rule (length x) (sample x) (sample y).
Proof.
  intros Hlen. unfold trapezoid, trapezoidal_rule.
  rewrite fold_left_sum.
  rewrite !zip_with_length, diff_length, length_tl, removelast_length, Hlen.
  rewrite !Nat.min_id.
  apply sum_upto_ext. intros i Hi.
  rewrite zip_with_sample
    by (rewrite ?zip_with_length, ?diff_length, ?length_tl,
          ?removelast_length, ?Hlen, ?Nat.min_id; lia).
  rewrite diff_sample by lia.
  rewrite zip_with_sample by (rewrite ?length_tl, ?removelast_length; lia).
  rewrite sample_tl, sample_removelast by lia.
  lra.
Qed.

Lemma calculate_performance_indices_value (time output : list R) (setpoint : R) :
  length time = length output -> (2 <= length time)%nat ->
  let n := length time in
  let t := sample time in
  let e := error_at setpoint output in
  calculate_performance_indices time output setpoint =
    mkIndices
      (Fin (trapezoidal_rule n t (fun i => Rabs (e i))))
      (Fin (trapezoidal_rule n t (fun i => e i ^ 2)))
      (Fin (trapezoidal_rule n t (fun i => t i * Rabs (e i))))
      (Fin (trapezoidal_rule n t (fun i => t i * e i ^ 2))).
Proof.
  intros Hlen Hn n t e. unfold calculate_performance_indices.
  replace (length time =? length output)%nat with true
    by (symmetry; now apply Nat.eqb_eq).
  replace (length time <? 2)%nat with false
    by (symmetry; apply Nat.ltb_ge; lia).
  cbn [negb orb].
  assert (He : forall (f : R -> R) i, (i < n)%nat ->
             sample (map f (map (fun o => setpoint - o) output)) i = f (e i)).
  { intros f i Hi. subst n e. unfold error_at.
    rewrite !sample_map; rewrite ?length_map; try lia. reflexivity. }
  assert (Hte : forall (f : R -> R) i, (i < n)%nat ->
             sample (zip_with Rmult time
                       (map f (map (fun o => setpoint - o) output))) i
             = t i * f (e i)).
  { intros f i Hi. subst n.
    rewrite zip_with_sample by (rewrite ?length_map; lia).
    now rewrite He. }
  rewrite !trapezoid_rule
    by (rewrite ?zip_with_length, ?length_map; lia).
  fold n. fold t.
  f_equal; f_equal; apply trapezoidal_rule_ext; intros i Hi.
  - apply (He Rabs i Hi).
  - apply (He (fun e => e ^ 2) i Hi).
  - apply (Hte Rabs i Hi).
  - apply (Hte (fun e => e ^ 2) i Hi).
Qed.

Lemma calculate_performance_indices_nan (time output : list R) (setpoint : R) :
  length time <> length output \/ (length time < 2)%nat ->
  calculate_performance_indices time output setpoint =
    mkIndices NaN NaN NaN NaN.
Proof.
  intros H. unfold calculate_performance_indices.
  destruct (Nat.eqb_spec (length time) (length output)) as [E | E];
    cbn [negb orb]; [| reflexivity].
  destruct H as [H | H]; [contradiction |].
  apply Nat.ltb_lt in H. now rewrite H.
Qed.

(** C6.  [calculate_performance_indices] returns four not-a-number values,
    and does not raise, whenever the two arrays differ in length or there are
    fewer than 2 samples; otherwise it returns the trapezoidal-rule integrals
    over the sample grid of |e|, e^2, t |e| and t e^2 for
    [e(t) = setpoint - output(t)], as IAE, ISE, ITAE and ITSE. *)
Theorem performance_indices (time output : list R) (setpoint : R) :
  (length time <> length output \/ (length time < 2)%nat ->
   calculate_performance_indices time output setpoint =
     mkIndices NaN NaN NaN NaN)
  /\ (length time = length output -> (2 <= length time)%nat ->
      let n := length time in
      let t := sample time in
      let e := error_at setpoint output in
      calculate_performance_indices time output setpoint =
        mkIndices
          (Fin (trapezoidal_rule n t (fun i => Rabs (e i))))
          (Fin (trapezoidal_rule n t (fun i => e i ^ 2)))
          (Fin (trapezoidal_rule n t (fun i => t i * Rabs (e i))))
          (Fin (trapezoidal_rule n t (fun i => t i * e i ^ 2)))).
Proof.
  split.
  - apply calculate_performance_indices_nan.
  - apply calculate_performance_indices_value.
Qed.

Lemma Rabs_nonneg_eq (x : R) : 0 <= x -> Rabs x = x.
Proof. intros H. apply Rabs_right. lra. Qed.

(** Three samples of a ramp from 0 to 1 over [0, 2], against the set point
    1: the indices are 1, 3/4, 1/2 and 1/4. *)
Lemma ramp_indices :
  calculate_performance_indices [0; 1; 2] [0; 0.5; 1] 1 =
    mkIndices (Fin 1) (Fin 0.75) (Fin 0.5) (Fin 0.25).
Proof.
  unfold calculate_performance_indices, trapezoid, diff. cbn.
  rewrite !Rabs_nonneg_eq by lra.
  f_equal; f_equal; lra.
Qed.

Lemma performance_indices_witness :
  calculate_performance_indices [0] [0] 1 = mkIndices NaN NaN NaN NaN
  /\ calculate_performance_indices [0; 1; 2] [0; 0.5; 1] 1 =
       mkIndices
         (Fin (trapezoidal_rule 3 (sample [0; 1; 2])
                 (fun i => Rabs (error_at 1 [0; 0.5; 1] i))))
         (Fin (trapezoidal_rule 3 (sample [0; 1; 2])
                 (fun i => error_at 1 [0; 0.5; 1] i ^ 2)))
         (Fin (trapezoidal_rule 3 (sample [0; 1; 2])
                 (fun i => sample [0; 1; 2] i * Rabs (error_at 1 [0; 0.5; 1] i))))
         (Fin (trapezoidal_rule 3 (sample [0; 1; 2])
                 (fun i => sample [0; 1; 2] i * error_at 1 [0; 0.5; 1] i ^ 2))).
Proof.
  split.
  - apply (proj1 (performance_indices [0] [0] 1)).
    right. cbn. lia.
  - apply (proj2 (performance_indices [0; 1; 2] [0; 0.5; 1] 1)).
    + reflexivity.
    + cbn. lia.
Defined.

(** ** The embedding on the systems of the repository's tests *)

(** The horizon is determined by the poles. *)
Lemma slowest_decay_unique (ps : list complex) (r r' : R) :
  slowest_decay ps r -> slowest_decay ps r' -> r = r'.
Proof.
  intros [(p & Hp & Hd & ->) Hmin] [(p' & Hp' & Hd' & ->) Hmin'].
  apply Rle_antisym; auto.
Qed.

Lemma horizon_unique (ps : result (list complex)) (T T' : R) :
  horizon ps T -> horizon ps T' -> T = T'.
Proof.
  destruct ps as [ps | e]; cbn; [| congruence].
  intros [(r & Hr & ->) | [Hno ->]] [(r' & Hr' & ->) | [Hno' ->]].
  - now rewrite (slowest_decay_unique ps r r').
  - destruct Hr as [(p & Hp & Hd & _) _]. now destruct (Hno' p).
  - destruct Hr' as [(p & Hp & Hd & _) _]. now destruct (Hno p).
  - reflexivity.
Qed.

(** The controller with the gains 2, 5 and 3 is (3 s^2 + 2 s + 5) / s. *)
Lemma pid_controller_example :
  get_pid_controller (mkPID 2 5 3) = mkTF [3; 2; 5] [1; 0].
Proof.
  unfold get_pid_controller. cbn [Kp Ki Kd]. run_tf.
  f_equal; repeat (f_equal; try lra).
Qed.


(** * Further properties of the code *)

(** ** Complex arithmetic and polynomial evaluation *)

Lemma complex_eq (z w : complex) : re z = re w -> im z = im w -> z = w.
Proof. destruct z, w. cbn. intros -> ->. reflexivity. Qed.

Lemma complex_ring_theory :
  ring_theory (Cof 0) (Cof 1) Cadd Cmul Csub Copp eq.
Proof.
  constructor; intros; try reflexivity;
    apply complex_eq; cbn; ring.
Qed.

Add Ring complex_ring : complex_ring_theory.

Lemma Cof_add (x y : R) : Cof (x + y) = Cadd (Cof x) (Cof y).
Proof. apply complex_eq; cbn; ring. Qed.

Lemma Cof_mul (x y : R) : Cof (x * y) = Cmul (Cof x) (Cof y).
Proof. apply complex_eq; cbn; ring. Qed.

Lemma Cof_inj (x y : R) : Cof x = Cof y -> x = y.
Proof. intros H. exact (f_equal re H). Qed.

Lemma Cnorm2_mul (z w : complex) : Cnorm2 (Cmul z w) = Cnorm2 z * Cnorm2 w.
Proof. unfold Cnorm2. cbn. ring. Qed.

Lemma Cnorm2_zero (z : complex) : Cnorm2 z = 0 <-> z = Cof 0.
Proof.
  split.
  - unfold Cnorm2. intros H. apply complex_eq; cbn; nra.
  - intros ->. unfold Cnorm2. cbn. ring.
Qed.

(** The complex numbers have no zero divisors. *)
Lemma Cmul_integral (z w : complex) :
  Cmul z w = Cof 0 -> z = Cof 0 \/ w = Cof 0.
Proof.
  intros H. apply Cnorm2_zero in H. rewrite Cnorm2_mul in H.
  apply Rmult_integral in H. destruct H as [H | H]; [left | right];
    now apply Cnorm2_zero.
Qed.

Lemma polyval_fold (p : list R) (s : complex) :
  polyval p s = fold_left (horner s) p (Cof 0).
Proof. reflexivity. Qed.

Lemma horner_acc (p : list R) (s acc : complex) :
  fold_left (horner s) p acc =
    Cadd (Cmul acc (Cpow s (length p))) (polyval p s).
Proof.
  rewrite polyval_fold. revert acc.
  induction p as [| c p IH]; intros acc.
  - cbn. ring.
  - cbn [fold_left length Cpow]. rewrite IH, (IH (horner s (Cof 0) c)).
    unfold horner. ring.
Qed.

Lemma polyval_cons (c : R) (p : list R) (s : complex) :
  polyval (c :: p) s = Cadd (Cmul (Cof c) (Cpow s (length p))) (polyval p s).
Proof.
  rewrite polyval_fold. cbn [fold_left]. rewrite horner_acc.
  unfold horner. ring.
Qed.

Lemma polyval_nil (s : complex) : polyval [] s = Cof 0.
Proof. reflexivity. Qed.

Lemma polyval_app (p q : list R) (s : complex) :
  polyval (p ++ q) s =
    Cadd (Cmul (polyval p s) (Cpow s (length q))) (polyval q s).
Proof.
  rewrite (polyval_fold (p ++ q)), fold_left_app, horner_acc.
  now rewrite <- polyval_fold.
Qed.

Lemma polyval_zeros (k : nat) (s : complex) : polyval (repeat 0 k) s = Cof 0.
Proof.
  induction k as [| k IH]; [reflexivity |].
  cbn [repeat]. rewrite polyval_cons, IH. ring.
Qed.

Lemma polyval_pad_left (n : nat) (p : list R) (s : complex) :
  polyval (pad_left n p) s = polyval p s.
Proof.
  unfold pad_left. rewrite polyval_app, polyval_zeros. ring.
Qed.

Lemma polyval_shift (p : list R) (k : nat) (s : complex) :
  polyval (p ++ repeat 0 k) s = Cmul (polyval p s) (Cpow s k).
Proof.
  rewrite polyval_app, polyval_zeros, repeat_length. ring.
Qed.

Lemma polyval_scale (a : R) (p : list R) (s : complex) :
  polyval (map (Rmult a) p) s = Cmul (Cof a) (polyval p s).
Proof.
  induction p as [| c p IH].
  - cbn. ring.
  - cbn [map]. rewrite !polyval_cons, IH, length_map, Cof_mul. ring.
Qed.

Lemma Reqb_eq (x y : R) : Reqb x y = true -> x = y.
Proof. unfold Reqb. destruct (Req_dec_T x y); [auto | discriminate]. Qed.

Lemma polyval_truncatecoeff (p : list R) (s : complex) :
  polyval (truncatecoeff p) s = polyval p s.
Proof.
  induction p as [| c p IH]; [reflexivity |].
  destruct p as [| c' p']; [reflexivity |].
  change (truncatecoeff (c :: c' :: p'))
    with (if Reqb c 0 then truncatecoeff (c' :: p') else c :: c' :: p').
  destruct (Reqb c 0) eqn:E; [| reflexivity].
  apply Reqb_eq in E. subst c. rewrite IH.
  rewrite (polyval_cons 0). ring.
Qed.

Lemma polyval_zip_add (a b : list R) (s : complex) :
  length a = length b ->
  polyval (zip_with Rplus a b) s = Cadd (polyval a s) (polyval b s).
Proof.
  revert b. induction a as [| x a IH]; intros [| y b] Hlen; try discriminate.
  - cbn. ring.
  - cbn [zip_with]. injection Hlen as Hlen.
    rewrite !polyval_cons, IH, zip_with_length, Cof_add, <- Hlen, Nat.min_id
      by assumption.
    ring.
Qed.

Lemma pad_left_length (n : nat) (p : list R) :
  (length p <= n)%nat -> length (pad_left n p) = n.
Proof.
  intros H. unfold pad_left. rewrite length_app, repeat_length. lia.
Qed.

(** The polynomial operations are what their names say. *)
Lemma polyval_polyadd (a b : list R) (s : complex) :
  polyval (polyadd a b) s = Cadd (polyval a s) (polyval b s).
Proof.
  unfold polyadd. rewrite polyval_zip_add, !polyval_pad_left.
  - reflexivity.
  - rewrite !pad_left_length; lia.
Qed.

Lemma polyval_convolve (a b : list R) (s : complex) :
  polyval (convolve a b) s = Cmul (polyval a s) (polyval b s).
Proof.
  induction a as [| a0 a IH].
  - cbn. ring.
  - cbn [convolve].
    rewrite polyval_polyadd, polyval_shift, polyval_scale, IH, polyval_cons.
    ring.
Qed.

Lemma polyval_polymul (a b : list R) (s : complex) :
  polyval (polymul a b) s = Cmul (polyval a s) (polyval b s).
Proof.
  unfold polymul. now rewrite polyval_convolve, !polyval_truncatecoeff.
Qed.

(** ** Transfer functions as rational functions *)

Lemma tf_num (n d : list R) (s : complex) :
  polyval (num (tf n d)) s = polyval n s.
Proof. apply polyval_truncatecoeff. Qed.

Lemma tf_den (n d : list R) (s : complex) :
  polyval (den (tf n d)) s = polyval d s.
Proof. apply polyval_truncatecoeff. Qed.

Lemma tf_mul_num (g h : TransferFunction) (s : complex) :
  polyval (num (tf_mul g h)) s = Cmul (polyval (num g) s) (polyval (num h) s).
Proof. unfold tf_mul. now rewrite tf_num, polyval_polymul. Qed.

Lemma tf_mul_den (g h : TransferFunction) (s : complex) :
  polyval (den (tf_mul g h)) s = Cmul (polyval (den g) s) (polyval (den h) s).
Proof. unfold tf_mul. now rewrite tf_den, polyval_polymul. Qed.

Lemma tf_add_num (g h : TransferFunction) (s : complex) :
  polyval (num (tf_add g h)) s =
    Cadd (Cmul (polyval (num g) s) (polyval (den h) s))
         (Cmul (polyval (num h) s) (polyval (den g) s)).
Proof. unfold tf_add. now rewrite tf_num, polyval_polyadd, !polyval_polymul. Qed.

Lemma tf_add_den (g h : TransferFunction) (s : complex) :
  polyval (den (tf_add g h)) s = Cmul (polyval (den g) s) (polyval (den h) s).
Proof. unfold tf_add. now rewrite tf_den, polyval_polymul. Qed.

Lemma all_zero_polyval (p : list R) (s : complex) :
  all_zero p = true -> polyval p s = Cof 0.
Proof.
  unfold all_zero. induction p as [| c p IH]; [reflexivity |].
  cbn [forallb]. intros H. apply andb_prop in H. destruct H as [Hc Hp].
  apply Reqb_eq in Hc. subst c. rewrite polyval_cons, IH by assumption. ring.
Qed.

Lemma all_zero_truncatecoeff (p : list R) :
  all_zero (truncatecoeff p) = all_zero p.
Proof.
  unfold all_zero. induction p as [| c p IH]; [reflexivity |].
  destruct p as [| c' p']; [reflexivity |].
  change (truncatecoeff (c :: c' :: p'))
    with (if Reqb c 0 then truncatecoeff (c' :: p') else c :: c' :: p').
  destruct (Reqb c 0) eqn:E; [| reflexivity].
  rewrite IH. cbn [forallb]. now rewrite E.
Qed.

(** A product of polynomials that are not zero is not zero: its leading
    coefficient is the product of theirs. *)
Lemma polyadd_length (a b : list R) :
  length (polyadd a b) = Nat.max (length a) (length b).
Proof.
  unfold polyadd. cbv zeta.
  rewrite zip_with_length, !pad_left_length by lia. lia.
Qed.

Lemma polyadd_head (a0 : R) (a b : list R) :
  (length b <= length a)%nat ->
  exists r : list R, polyadd (a0 :: a) b = (a0 + 0) :: r.
Proof.
  intros Hl. unfold polyadd, pad_left. cbv zeta. cbn [length].
  replace (Nat.max (S (length a)) (length b)) with (S (length a)) by lia.
  replace (S (length a) - S (length a))%nat with 0%nat by lia.
  replace (S (length a) - length b)%nat with (S (length a - length b)) by lia.
  cbn. eauto.
Qed.

Lemma convolve_length_le (a : list R) (d : R) (q : list R) :
  (length (convolve a (d :: q)) <= length a + length q)%nat.
Proof.
  induction a as [| a0 a IH]; cbn [convolve length]; [lia |].
  rewrite polyadd_length, length_app, length_map, repeat_length.
  cbn [length]. lia.
Qed.

Lemma convolve_head (c d : R) (p q : list R) :
  exists r : list R, convolve (c :: p) (d :: q) = (c * d + 0) :: r.
Proof.
  cbn [convolve map app]. apply polyadd_head.
  rewrite length_app, length_map, repeat_length.
  pose proof (convolve_length_le p d q). lia.
Qed.

Lemma truncatecoeff_head (p : list R) :
  all_zero p = false ->
  exists (c : R) (r : list R), truncatecoeff p = c :: r /\ c <> 0.
Proof.
  unfold all_zero. induction p as [| c p IH]; [discriminate |].
  destruct p as [| c' p'].
  - cbn. destruct (Reqb c 0) eqn:E; [discriminate |]. intros _.
    exists c, []. split; [reflexivity |].
    intros ->. now rewrite Reqb_true in E.
  - change (truncatecoeff (c :: c' :: p'))
      with (if Reqb c 0 then truncatecoeff (c' :: p') else c :: c' :: p').
    cbn [forallb] in *. destruct (Reqb c 0) eqn:E.
    + cbn [andb]. exact IH.
    + intros _. exists c, (c' :: p'). split; [reflexivity |].
      intros ->. now rewrite Reqb_true in E.
Qed.

Lemma polymul_nonzero (a b : list R) :
  all_zero a = false -> all_zero b = false ->
  all_zero (polymul a b) = false.
Proof.
  intros Ha Hb. unfold polymul.
  destruct (truncatecoeff_head a Ha) as (c & p & -> & Hc).
  destruct (truncatecoeff_head b Hb) as (d & q & -> & Hd).
  destruct (convolve_head c d p q) as (r & ->).
  unfold all_zero. cbn [forallb].
  rewrite Reqb_false; [reflexivity |].
  rewrite Rplus_0_r. now apply Rmult_integral_contrapositive_currified.
Qed.

Lemma series_numerator_nonzero (g h : TransferFunction) :
  all_zero (num g) = false -> all_zero (num h) = false ->
  all_zero (num (tf_mul g h)) = false.
Proof.
  intros Hg Hh. unfold tf_mul, tf. cbn [num].
  rewrite all_zero_truncatecoeff. now apply polymul_nonzero.
Qed.

(** The two outcomes of [feedback]. *)
Lemma feedback_raises (g h : TransferFunction) (e : exn) (s : complex) :
  feedback g h = Raise e ->
  e = ValueError ControlMsg.zero_denominator
  /\ Cadd (Cmul (polyval (den h) s) (polyval (den g) s))
          (Cmul (polyval (num h) s) (polyval (num g) s)) = Cof 0.
Proof.
  unfold feedback. cbv zeta.
  destruct (all_zero (polyadd _ _)) eqn:Ed.
  - intros H. injection H as <-. split; [reflexivity |].
    rewrite <- !polyval_polymul, <- polyval_polyadd.
    now apply all_zero_polyval.
  - destruct (all_zero (polymul (num g) (den h))); discriminate.
Qed.

Lemma feedback_returns (g h cl : TransferFunction) (s : complex) :
  feedback g h = Ok cl ->
  polyval (num cl) s = Cmul (polyval (num g) s) (polyval (den h) s)
  /\ (all_zero (num cl) = false ->
      polyval (den cl) s =
        Cadd (Cmul (polyval (den h) s) (polyval (den g) s))
             (Cmul (polyval (num h) s) (polyval (num g) s)))
  /\ (all_zero (num cl) = true -> den cl = [1]).
Proof.
  unfold feedback. cbv zeta.
  destruct (all_zero (polyadd _ _)) eqn:Ed; [discriminate |].
  destruct (all_zero (polymul (num g) (den h))) eqn:En;
    intros H; injection H as <-.
  - split; [now rewrite tf_num, polyval_polymul |].
    split.
    + cbn [num tf]. rewrite all_zero_truncatecoeff, En. discriminate.
    + intros _. reflexivity.
  - split; [now rewrite tf_num, polyval_polymul |].
    split.
    + intros _. now rewrite tf_den, polyval_polyadd, !polyval_polymul.
    + cbn [num tf]. rewrite all_zero_truncatecoeff, En. discriminate.
Qed.

(** Evaluation of a rational model built by the operations above. *)
Ltac eval_tf :=
  repeat first
    [ rewrite tf_mul_num | rewrite tf_mul_den
    | rewrite tf_add_num | rewrite tf_add_den
    | rewrite tf_num | rewrite tf_den ].

Ltac complex_field := apply complex_eq; cbn; try ring.

(** ** The PID controller *)

(** X1.  [get_pid_controller] realises the PID law
    [C(s) = Kp + Ki / s + Kd s]: its numerator and denominator satisfy
    [num(s) * s = (Kd s^2 + Kp s + Ki) * den(s)] at every complex [s], and
    the denominator is [s] when there is integral action, 1 otherwise. *)
Theorem pid_controller_law (pid_params : PID R) (s : complex) :
  let c := get_pid_controller pid_params in
  let law := Cadd (Cadd (Cmul (Cof (Kd pid_params)) (Cmul s s))
                        (Cmul (Cof (Kp pid_params)) s))
                  (Cof (Ki pid_params)) in
  Cmul (polyval (num c) s) s = Cmul law (polyval (den c) s)
  /\ polyval (den c) s = (if Reqb (Ki pid_params) 0 then Cof 1 else s).
Proof.
  destruct pid_params as [kp ki kd]. cbn [Kp Ki Kd].
  unfold get_pid_controller. cbn [Kp Ki Kd]. cbv zeta.
  destruct (Req_dec_T ki 0) as [-> | Hi];
    destruct (Req_dec_T kd 0) as [-> | Hd];
    settle_guards; cbn [to_tf]; eval_tf;
    destruct s as [x y]; split; complex_field.
Qed.

(** ** The closed loop that [analyze_step_response] simulates *)

Lemma polyval_one (s : complex) : polyval [1] s = Cof 1.
Proof. destruct s as [x y]. apply complex_eq; cbn; ring. Qed.

(** X2.  The closed loop that [analyze_step_response] forms from the
    controller [C = Nc / Dc] and the plant [G = Ng / Dg] is the unity
    feedback loop.  [control.feedback] raises its zero-denominator
    [ValueError] only when the characteristic polynomial [Dc Dg + Nc Ng]
    vanishes identically.  When it returns, the numerator is [Nc Ng]; if
    that is not the zero polynomial the denominator is [Dc Dg + Nc Ng], so
    that the closed-loop poles are exactly its roots; if it is, the loop is
    stored as 0/1 and has no pole. *)
Theorem closed_loop_characteristic (sys_tf : TransferFunction)
    (pid_params : PID R) (s : complex) :
  let c := get_pid_controller pid_params in
  let loop := feedback (tf_mul c sys_tf) (tf [1] [1]) in
  let characteristic :=
    Cadd (Cmul (polyval (den c) s) (polyval (den sys_tf) s))
         (Cmul (polyval (num c) s) (polyval (num sys_tf) s)) in
  (forall e : exn,
      loop = Raise e ->
      e = ValueError ControlMsg.zero_denominator /\ characteristic = Cof 0)
  /\ (forall closed_loop : TransferFunction,
         loop = Ok closed_loop ->
         polyval (num closed_loop) s =
           Cmul (polyval (num c) s) (polyval (num sys_tf) s)
         /\ (all_zero (num closed_loop) = false ->
             polyval (den closed_loop) s = characteristic
             /\ (is_pole closed_loop s <-> characteristic = Cof 0))
         /\ (all_zero (num closed_loop) = true ->
             den closed_loop = [1] /\ ~ is_pole closed_loop s)).
Proof.
  intros c loop characteristic. subst loop characteristic. split.
  - intros e He. destruct (feedback_raises _ _ e s He) as [-> Hz].
    split; [reflexivity |].
    revert Hz. eval_tf. rewrite polyval_one. intros Hz. rewrite <- Hz. ring.
  - intros closed_loop Hcl.
    destruct (feedback_returns _ _ closed_loop s Hcl) as (HN & HD & H1).
    revert HN HD. eval_tf. rewrite polyval_one. intros HN HD.
    split; [rewrite HN; ring |].
    split.
    + intros Hnz.
      assert (Hden : polyval (den closed_loop) s =
                Cadd (Cmul (polyval (den c) s) (polyval (den sys_tf) s))
                     (Cmul (polyval (num c) s) (polyval (num sys_tf) s)))
        by (rewrite (HD Hnz); ring).
      split; [exact Hden |]. unfold is_pole. now rewrite Hden.
    + intros Hz. split; [now apply H1 |].
      unfold is_pole. rewrite (H1 Hz), polyval_one.
      intros F. apply Cof_inj in F. lra.
Qed.

Lemma closed_loop_characteristic_witness :
  (let s := Cof 2 in
   Cadd (Cmul (polyval (den (get_pid_controller (mkPID (-1) 0 (-1)))) s)
              (polyval (den (tf [1] [1; 1])) s))
        (Cmul (polyval (num (get_pid_controller (mkPID (-1) 0 (-1)))) s)
              (polyval (num (tf [1] [1; 1])) s)) = Cof 0)
  /\ polyval (den (mkTF [1] [1; 1; 2])) (Cof 2) =
       Cadd (Cmul (polyval (den (get_pid_controller (mkPID 1 0 0))) (Cof 2))
                  (polyval (den (tf [1] [1; 1; 1])) (Cof 2)))
            (Cmul (polyval (num (get_pid_controller (mkPID 1 0 0))) (Cof 2))
                  (polyval (num (tf [1] [1; 1; 1])) (Cof 2))).
Proof.
  split.
  - exact (proj2 (proj1 (closed_loop_characteristic (tf [1] [1; 1])
                           (mkPID (-1) 0 (-1)) (Cof 2))
                        _ cancelling_closed_loop)).
  - destruct (proj2 (closed_loop_characteristic (tf [1] [1; 1; 1])
                       (mkPID 1 0 0) (Cof 2))
                    _ proportional_closed_loop) as (_ & H & _).
    apply H. cbn. now rewrite Reqb_false by lra.
Defined.

(** The simulation is skipped exactly for the gains 0, 0 and 0. *)
Lemma nonzero_controller (pid_params : PID R) :
  ~ (Kp pid_params = 0 /\ Ki pid_params = 0 /\ Kd pid_params = 0) ->
  forallb (fun c => Reqb c 0) (num (get_pid_controller pid_params)) = false.
Proof.
  intros H.
  destruct (forallb _ (num (get_pid_controller pid_params))) eqn:E;
    [| reflexivity].
  apply zero_controller_iff in E. contradiction.
Qed.

(** X3.  [analyze_step_response] takes the early return without simulation
    only for the gains 0, 0 and 0.  As soon as one gain is not zero (even
    with [Kp = 0]) it forms the closed loop: an error of [control.feedback]
    is raised to the caller, before any pole is computed; otherwise the
    closed loop is simulated over the 1500 samples and the function returns
    what [control.step_response] and [control.step_info] return, or raises
    what they raise. *)
Theorem simulated_unless_zero_gains (ct : Control) (sys_tf : TransferFunction)
    (pid_params : PID R) :
  ~ (Kp pid_params = 0 /\ Ki pid_params = 0 /\ Kd pid_params = 0) ->
  analyze_step_response ct sys_tf pid_params =
    match feedback (tf_mul (get_pid_controller pid_params) sys_tf) (tf [1] [1])
    with
    | Raise e => Raise e
    | Ok closed_loop =>
        let time_vec := linspace 0 (T_final_of ct closed_loop) 1500 in
        match step_response ct closed_loop time_vec with
        | Raise e => Raise e
        | Ok (t, y) =>
            match step_info ct closed_loop time_vec 0.02 with
            | Raise e => Raise e
            | Ok inf => Ok (mkStepResponse t y inf)
            end
        end
    end.
Proof.
  intros Hnz.
  rewrite analyze_step_response_nonzero by now apply nonzero_controller.
  destruct (feedback _ _) as [closed_loop | e]; [| reflexivity].
  cbn [bind]. cbv zeta.
  destruct (step_response ct closed_loop _) as [[t y] | e]; reflexivity.
Qed.

(** The plant 1/(s^2+s+1) under the integral gain 2 closes to
    2/(s^3+s^2+s+2). *)
Lemma integral_closed_loop :
  feedback (tf_mul (get_pid_controller (mkPID 0 2 0)) (tf [1] [1; 1; 1]))
           (tf [1] [1])
  = Ok (mkTF [2] [1; 1; 1; 2]).
Proof.
  unfold get_pid_controller. cbn [Kp Ki Kd]. run_tf.
  do 2 f_equal; repeat (f_equal; try lra).
Qed.

Lemma simulated_unless_zero_gains_witness :
  analyze_step_response second_order_control (tf [1] [1; 1; 1]) (mkPID 0 2 0) =
    Ok (mkStepResponse
          (linspace 0 20 1500) (map (fun _ => 1) (linspace 0 20 1500)) [])
  /\ analyze_step_response second_order_control (tf [1] [1; 1])
       (mkPID (-1) 0 (-1))
     = Raise (ValueError ControlMsg.zero_denominator).
Proof.
  split.
  - rewrite (simulated_unless_zero_gains second_order_control
               (tf [1] [1; 1; 1]) (mkPID 0 2 0)).
    + rewrite integral_closed_loop.
      cbn [step_response step_info second_order_control constant_control].
      cbv zeta. now rewrite second_order_horizon.
    + cbn. intros (_ & H & _). lra.
  - rewrite (simulated_unless_zero_gains second_order_control
               (tf [1] [1; 1]) (mkPID (-1) 0 (-1))).
    + now rewrite cancelling_closed_loop.
    + cbn. intros (H & _). lra.
Defined.

(** ** The simulation horizon and the sample times *)

Lemma decaying_rate (p : complex) : decaying p -> 1e-6 < Rabs (re p).
Proof.
  unfold decaying. intros H. rewrite Rabs_left by lra. lra.
Qed.

(** The horizon is 50 or below ten million. *)
Lemma T_final_bounds (ct : Control) (closed_loop_tf : TransferFunction) :
  0 < T_final_of ct closed_loop_tf < 10000000.
Proof.
  pose proof (T_final_horizon ct closed_loop_tf) as H.
  unfold horizon in H.
  destruct (poles ct closed_loop_tf) as [ps | e]; [| rewrite H; lra].
  destruct H as [(r & [(p & _ & Hd & Hr) _] & ->) | [_ ->]]; [| lra].
  apply decaying_rate in Hd. rewrite <- Hr in Hd.
  assert (Hr0 : 0 < r) by lra.
  split.
  - apply Rdiv_lt_0_compat; lra.
  - apply (Rmult_lt_reg_r r); [assumption |].
    unfold Rdiv. rewrite Rmult_assoc, Rinv_l by lra. lra.
Qed.

(** X4.  Whatever [control.poles] returns or raises, the simulation horizon
    chosen by [analyze_step_response] is positive and below 10^7: it is 50,
    or ten time constants of a pole whose decay rate exceeds 1e-6. *)
Theorem horizon_bounds (ct : Control) (closed_loop_tf : TransferFunction) :
  0 < T_final_of ct closed_loop_tf < 10000000.
Proof.
  apply T_final_bounds.
Qed.

(** X5.  The 1500 sample times that [analyze_step_response] hands to the
    simulation are strictly increasing, for every plant and controller. *)
Theorem sample_times_increasing (ct : Control) (closed_loop_tf : TransferFunction)
    (i : nat) :
  (i < 1499)%nat ->
  let time_vec := linspace 0 (T_final_of ct closed_loop_tf) 1500 in
  nth i time_vec 0 < nth (S i) time_vec 0.
Proof.
  intros Hi time_vec. subst time_vec.
  rewrite !linspace_nth by lia. rewrite INR_1499, S_INR.
  pose proof (T_final_bounds ct closed_loop_tf) as [HT _].
  set (T := T_final_of ct closed_loop_tf) in *.
  assert (0 < (T - 0) / 1499) by (apply Rdiv_lt_0_compat; lra).
  unfold Rdiv in *. nra.
Qed.

Lemma sample_times_increasing_witness :
  nth 7 (linspace 0 (T_final_of second_order_control (tf [1] [1; 1; 2])) 1500) 0
  < nth 8 (linspace 0 (T_final_of second_order_control (tf [1] [1; 1; 2])) 1500) 0.
Proof.
  apply (sample_times_increasing second_order_control (tf [1] [1; 1; 2]) 7).
  lia.
Defined.

(** ** Outcomes of the open-loop rules *)

Lemma zn_open_loop_errors (k_p tau theta : R) (e : exn) :
  ziegler_nichols_open_loop k_p tau theta = Raise e ->
  e = ValueError Msg.gain_zero \/ e = ValueError Msg.zn_open_no_dead_time
  \/ e = ZeroDivisionError.
Proof.
  unfold ziegler_nichols_open_loop, pydiv.
  repeat match goal with
         | |- context [if ?b then _ else _] => destruct b
         end; cbn; intros H; try discriminate; injection H as <-; auto.
Qed.

(** X6.  [ziegler_nichols_open_loop] tests the process gain before the dead
    time and never looks at the time constant: [k_p = 0] raises the
    zero-gain [ValueError], also when [theta <= 0]; otherwise [theta <= 0]
    raises the no-dead-time [ValueError]; it returns a gain set only when
    [k_p <> 0] and not [theta <= 0].  The only other exception is
    [ZeroDivisionError], and the guards do not exclude it: in binary64 the
    product [k_p * theta] underflows to zero at (1e-200, 1, 1e-200), two
    parameters that pass both guards, and there the rule raises it. *)
Theorem zn_open_loop_outcome :
  (forall k_p tau theta : R,
      k_p = 0 ->
      ziegler_nichols_open_loop k_p tau theta = Raise (ValueError Msg.gain_zero))
  /\ (forall k_p tau theta : R,
         k_p <> 0 -> theta <= 0 ->
         ziegler_nichols_open_loop k_p tau theta =
           Raise (ValueError Msg.zn_open_no_dead_time))
  /\ (forall (k_p tau theta : R) (gains : PID R),
         ziegler_nichols_open_loop k_p tau theta = Ok gains ->
         k_p <> 0 /\ ~ theta <= 0)
  /\ (forall (k_p tau theta : R) (e : exn),
         ziegler_nichols_open_loop k_p tau theta = Raise e ->
         e = ValueError Msg.gain_zero
         \/ e = ValueError Msg.zn_open_no_dead_time
         \/ e = ZeroDivisionError)
  /\ (PrimFloat.eqb Binary64.tiny PrimFloat.zero = false
      /\ PrimFloat.ltb PrimFloat.zero Binary64.tiny = true
      /\ Binary64.ziegler_nichols_open_loop_b64
           Binary64.tiny Binary64.unit Binary64.tiny
         = Raise ZeroDivisionError).
Proof.
  split; [| split; [| split; [| split]]].
  - intros k_p tau theta ->. unfold ziegler_nichols_open_loop.
    now rewrite Reqb_true.
  - intros k_p tau theta HK Hth. now apply zn_open_loop_no_dead_time.
  - intros k_p tau theta gains H. apply zn_open_loop_inv in H.
    destruct H as [HK Hth]. split; [assumption | lra].
  - apply zn_open_loop_errors.
  - repeat split; vm_compute; reflexivity.
Qed.

Lemma zn_open_loop_outcome_witness :
  ziegler_nichols_open_loop 0 4 (-1) = Raise (ValueError Msg.gain_zero)
  /\ ziegler_nichols_open_loop 2 4 0 =
       Raise (ValueError Msg.zn_open_no_dead_time)
  /\ (1.5 <> 0 /\ ~ 1.0 <= 0).
Proof.
  destruct zn_open_loop_outcome as (H1 & H2 & H3 & _).
  split; [| split].
  - apply H1. reflexivity.
  - apply H2; lra.
  - apply (H3 1.5 4.0 1.0 (mkPID 3.2 1.6 1.6) zn_open_loop_example).
Defined.

(** The denominators of the Cohen-Coon formulas. *)
Lemma cohen_coon_defined (k_p tau theta : R) :
  k_p <> 0 -> 0 < theta ->
  tau <> 0 -> 13 * tau + 8 * theta <> 0 -> 11 * tau + 2 * theta <> 0 ->
  32 * tau + 6 * theta <> 0 ->
  exists gains, cohen_coon k_p tau theta = Ok gains.
Proof.
  intros HK Hth Ht H13 H11 H32. unfold cohen_coon.
  settle_guards.
  rewrite pydiv_ok; [eexists; reflexivity |].
  apply Rmult_integral_contrapositive_currified; [lra |].
  unfold Rdiv. apply Rmult_integral_contrapositive_currified; [assumption |].
  now apply Rinv_neq_0_compat.
Qed.

Lemma cohen_coon_undefined (k_p tau theta : R) :
  k_p <> 0 -> 0 < theta ->
  tau = 0 \/ 13 * tau + 8 * theta = 0 \/ 11 * tau + 2 * theta = 0
  \/ 32 * tau + 6 * theta = 0 ->
  cohen_coon k_p tau theta = Raise ZeroDivisionError.
Proof.
  intros HK Hth Hz. unfold cohen_coon.
  rewrite Reqb_false, Rleb_false by lra.
  rewrite (pydiv_ok tau), (pydiv_ok 4) by nonzero. rewrite !bind_ok.
  destruct (Req_dec_T tau 0) as [-> | Ht].
  { now rewrite Rmult_0_r, pydiv_zero. }
  rewrite (pydiv_ok theta) by nonzero. rewrite bind_ok.
  destruct (Req_dec_T (13 * tau + 8 * theta) 0) as [-> | H13].
  { now rewrite pydiv_zero. }
  rewrite (pydiv_ok _ (13 * tau + 8 * theta)) by assumption. rewrite bind_ok.
  destruct (Req_dec_T (11 * tau + 2 * theta) 0) as [-> | H11].
  { now rewrite pydiv_zero. }
  rewrite (pydiv_ok _ (11 * tau + 2 * theta)) by assumption. rewrite bind_ok.
  destruct Hz as [Hz | [Hz | [Hz | Hz]]]; try contradiction.
  rewrite Hz.
  replace (theta * (0 / (13 * tau + 8 * theta))) with 0
    by (unfold Rdiv; ring).
  now rewrite pydiv_zero.
Qed.

(** X7.  [cohen_coon] does not validate the time constant: with [tau = 0],
    past its two guards ([k_p <> 0], [theta > 0]), it raises
    [ZeroDivisionError], not a [ValueError]; and whenever it returns a gain
    set, [k_p <> 0], not [theta <= 0], and [tau <> 0]. *)
Theorem cohen_coon_outcome (k_p tau theta : R) :
  (k_p <> 0 -> 0 < theta -> tau = 0 ->
   cohen_coon k_p tau theta = Raise ZeroDivisionError)
  /\ (forall gains : PID R,
         cohen_coon k_p tau theta = Ok gains ->
         k_p <> 0 /\ ~ theta <= 0 /\ tau <> 0).
Proof.
  split.
  - intros HK Hth Ht. apply cohen_coon_undefined; auto.
  - intros gains H.
    assert (Hg : k_p <> 0 /\ 0 < theta).
    { revert H. unfold cohen_coon, Reqb, Rleb.
      destruct (Req_dec_T k_p 0); [discriminate |].
      destruct (Rle_dec theta 0); [discriminate |].
      intros _. split; [assumption | lra]. }
    destruct Hg as [HK Hth]. split; [assumption | split; [lra |]].
    intros Ht. rewrite cohen_coon_undefined in H by auto. discriminate.
Qed.

Lemma cohen_coon_outcome_witness :
  cohen_coon 1.5 0 1.0 = Raise ZeroDivisionError
  /\ (1.5 <> 0 /\ ~ 1.0 <= 0 /\ 4.0 <> 0).
Proof.
  split.
  - apply (proj1 (cohen_coon_outcome 1.5 0 1.0)); lra.
  - apply (proj2 (cohen_coon_outcome 1.5 4.0 1.0)
             (mkPID
                (4.0 / (1.5 * 1.0) * (4 / 3 + 1.0 / (4 * 4.0)))
                (4.0 / (1.5 * 1.0) * (4 / 3 + 1.0 / (4 * 4.0))
                   / (1.0 * ((32 * 4.0 + 6 * 1.0) / (13 * 4.0 + 8 * 1.0))))
                (4.0 / (1.5 * 1.0) * (4 / 3 + 1.0 / (4 * 4.0))
                   * (1.0 * (4 * 4.0 / (11 * 4.0 + 2 * 1.0)))))).
    apply cohen_coon_value; lra.
Defined.

(** X8.  [imc] accepts any dead time, also a negative one.  It returns a
    gain set exactly when [k_p <> 0], [tau_c > 0] and
    [tau_c + 0.5 theta <> 0]; it raises the zero-gain [ValueError] when
    [k_p = 0], the [tau_c] [ValueError] when [k_p <> 0] and [tau_c <= 0], and
    [ZeroDivisionError] when [theta = - 2 tau_c]. *)
Theorem imc_outcome (k_p tau theta tau_c : R) :
  ((exists gains, imc k_p tau theta tau_c = Ok gains)
     <-> k_p <> 0 /\ 0 < tau_c /\ tau_c + 0.5 * theta <> 0)
  /\ (k_p = 0 -> imc k_p tau theta tau_c = Raise (ValueError Msg.gain_zero))
  /\ (k_p <> 0 -> tau_c <= 0 ->
      imc k_p tau theta tau_c = Raise (ValueError Msg.tau_c_not_positive))
  /\ (k_p <> 0 -> 0 < tau_c -> tau_c + 0.5 * theta = 0 ->
      imc k_p tau theta tau_c = Raise ZeroDivisionError).
Proof.
  assert (Hzero : k_p = 0 ->
            imc k_p tau theta tau_c = Raise (ValueError Msg.gain_zero)).
  { intros ->. unfold imc. now rewrite Reqb_true. }
  assert (Htc : k_p <> 0 -> tau_c <= 0 ->
            imc k_p tau theta tau_c = Raise (ValueError Msg.tau_c_not_positive)).
  { intros HK Hc. unfold imc. now rewrite Reqb_false, Rleb_true. }
  assert (Hdiv : k_p <> 0 -> 0 < tau_c -> tau_c + 0.5 * theta = 0 ->
            imc k_p tau theta tau_c = Raise ZeroDivisionError).
  { intros HK Hc Hz. unfold imc.
    rewrite Reqb_false, Rleb_false by lra.
    rewrite (pydiv_ok 1) by assumption. rewrite bind_ok, Hz.
    now rewrite pydiv_zero. }
  split; [split | auto].
  - intros [gains H].
    destruct (Req_dec_T k_p 0) as [E0 | E0].
    { rewrite Hzero in H by assumption. discriminate. }
    destruct (Rle_dec tau_c 0) as [Hle | Hgt].
    { rewrite Htc in H by assumption. discriminate. }
    destruct (Req_dec_T (tau_c + 0.5 * theta) 0) as [Ez | Ez].
    { rewrite Hdiv in H by (assumption || lra). discriminate. }
    repeat split; (assumption || lra).
  - intros (HK & Hc & Hd). unfold imc.
    rewrite Reqb_false, Rleb_false by lra.
    rewrite (pydiv_ok 1) by assumption. rewrite bind_ok.
    rewrite (pydiv_ok _ (tau_c + 0.5 * theta)) by assumption. rewrite bind_ok.
    destruct (Req_dec_T (2 * tau + theta) 0) as [Hz | Hnz].
    + rewrite (Reqb_true (2 * tau + theta)) by assumption.
      rewrite (Reqb_true (tau + 0.5 * theta)) by lra.
      eexists. reflexivity.
    + rewrite (Reqb_false (2 * tau + theta)) by assumption.
      rewrite (Reqb_false (tau + 0.5 * theta)) by lra.
      cbn [negb]. rewrite !pydiv_ok by (assumption || lra).
      eexists. reflexivity.
Qed.

Lemma imc_outcome_witness :
  (exists gains, imc 1.5 4.0 (-1) 1.5 = Ok gains)
  /\ imc 0 4.0 1.0 1.5 = Raise (ValueError Msg.gain_zero)
  /\ imc 1.5 4.0 1.0 0 = Raise (ValueError Msg.tau_c_not_positive)
  /\ imc 1.5 4.0 (-3) 1.5 = Raise ZeroDivisionError.
Proof.
  destruct (imc_outcome 1.5 4.0 (-1) 1.5) as (H1 & _).
  destruct (imc_outcome 0 4.0 1.0 1.5) as (_ & H2 & _).
  destruct (imc_outcome 1.5 4.0 1.0 0) as (_ & _ & H3 & _).
  destruct (imc_outcome 1.5 4.0 (-3) 1.5) as (_ & _ & _ & H4).
  repeat split.
  - apply H1. repeat split; lra.
  - apply H2. reflexivity.
  - apply H3; lra.
  - apply H4; lra.
Defined.

(** ** Signs, scaling and comparison of the tuning rules *)

Lemma Rdiv_pos (x y : R) : 0 < x -> 0 < y -> 0 < x / y.
Proof. apply Rdiv_lt_0_compat. Qed.

Lemma cohen_coon_loop_gain_pos (tau theta : R) :
  0 < tau -> 0 < theta -> 0 < tau / theta * (4 / 3 + theta / (4 * tau)).
Proof.
  intros Ht Hth. apply Rmult_lt_0_compat.
  - now apply Rdiv_pos.
  - assert (0 < theta / (4 * tau)) by (apply Rdiv_pos; lra). lra.
Qed.

(** X9.  For a valid FOPDT plant with dead time ([k_p <> 0], [tau > 0],
    [theta > 0]) the three gains of Ziegler-Nichols open-loop and of
    Cohen-Coon all have the sign of the process gain: a reverse-acting
    plant gets a reverse-acting controller. *)
Theorem open_loop_gain_signs (k_p tau theta : R) :
  k_p <> 0 -> 0 < tau -> 0 < theta ->
  exists zn cc : PID R,
    ziegler_nichols_open_loop k_p tau theta = Ok zn
    /\ cohen_coon k_p tau theta = Ok cc
    /\ 0 < k_p * Kp zn /\ 0 < k_p * Ki zn /\ 0 < k_p * Kd zn
    /\ 0 < k_p * Kp cc /\ 0 < k_p * Ki cc /\ 0 < k_p * Kd cc.
Proof.
  intros HK Ht Hth.
  eexists. eexists.
  split; [now apply zn_open_loop_value |].
  split; [now apply cohen_coon_value |].
  cbn [Kp Ki Kd].
  assert (Hzn : k_p * (1.2 * tau / (k_p * theta)) = 1.2 * tau / theta)
    by (decimals; field; split; lra).
  assert (Hzn0 : 0 < 1.2 * tau / theta) by (apply Rdiv_pos; lra).
  pose proof (cohen_coon_loop_gain_pos tau theta Ht Hth) as Hcc0.
  assert (Hcc : k_p * (tau / (k_p * theta) * (4 / 3 + theta / (4 * tau)))
                = tau / theta * (4 / 3 + theta / (4 * tau)))
    by (field; repeat split; lra).
  pose proof (cohen_coon_ti_pos tau theta Ht Hth) as Hti.
  assert (Htd : 0 < theta * (4 * tau / (11 * tau + 2 * theta))).
  { apply Rmult_lt_0_compat; [lra |]. apply Rdiv_pos; lra. }
  repeat split.
  - rewrite Hzn. exact Hzn0.
  - unfold Rdiv at 1. rewrite <- Rmult_assoc, Hzn.
    apply Rmult_lt_0_compat; [exact Hzn0 |].
    apply Rinv_0_lt_compat. lra.
  - rewrite <- Rmult_assoc, Hzn. apply Rmult_lt_0_compat; lra.
  - rewrite Hcc. exact Hcc0.
  - unfold Rdiv at 1. rewrite <- Rmult_assoc.
    fold (tau / (k_p * theta)). rewrite Hcc.
    apply Rmult_lt_0_compat; [exact Hcc0 |].
    now apply Rinv_0_lt_compat.
  - rewrite <- Rmult_assoc, Hcc. now apply Rmult_lt_0_compat.
Qed.

Lemma open_loop_gain_signs_witness :
  exists zn cc : PID R,
    ziegler_nichols_open_loop (-2) 4 1 = Ok zn
    /\ cohen_coon (-2) 4 1 = Ok cc
    /\ 0 < -2 * Kp zn /\ 0 < -2 * Ki zn /\ 0 < -2 * Kd zn
    /\ 0 < -2 * Kp cc /\ 0 < -2 * Ki cc /\ 0 < -2 * Kd cc.
Proof.
  apply (open_loop_gain_signs (-2) 4 1); lra.
Defined.

(** X10.  For [k_p <> 0], [tau > 0], [theta >= 0] and [tau_c > 0] the IMC
    proportional and integral gains have the sign of the process gain; the
    derivative gain has that sign too when there is dead time and is zero
    exactly when there is none (a PI controller). *)
Theorem imc_gain_signs (k_p tau theta tau_c : R) :
  k_p <> 0 -> 0 < tau -> 0 <= theta -> 0 < tau_c ->
  exists gains : PID R,
    imc k_p tau theta tau_c = Ok gains
    /\ 0 < k_p * Kp gains /\ 0 < k_p * Ki gains
    /\ 0 <= k_p * Kd gains
    /\ (Kd gains = 0 <-> theta = 0).
Proof.
  intros HK Ht Hth Hc.
  eexists. split.
  { rewrite imc_value by assumption. cbv zeta.
    rewrite !Reqb_false by lra. reflexivity. }
  cbn [Kp Ki Kd].
  assert (HA : k_p * (1 / k_p * (tau + 0.5 * theta) / (tau_c + 0.5 * theta))
               = (tau + 0.5 * theta) / (tau_c + 0.5 * theta))
    by (decimals; field; split; lra).
  assert (HA0 : 0 < (tau + 0.5 * theta) / (tau_c + 0.5 * theta))
    by (apply Rdiv_pos; lra).
  assert (Htd : 0 <= tau * theta / (2 * tau + theta)).
  { apply Rmult_le_pos; [nra |]. left. apply Rinv_0_lt_compat. lra. }
  repeat split.
  - rewrite HA. exact HA0.
  - unfold Rdiv at 1. rewrite <- Rmult_assoc.
    fold (1 / k_p * (tau + 0.5 * theta) / (tau_c + 0.5 * theta)).
    rewrite HA. apply Rmult_lt_0_compat; [exact HA0 |].
    apply Rinv_0_lt_compat. lra.
  - rewrite <- Rmult_assoc, HA. apply Rmult_le_pos; lra.
  - intros Hz. apply (f_equal (Rmult k_p)) in Hz.
    rewrite <- Rmult_assoc, HA, Rmult_0_r in Hz.
    apply Rmult_integral in Hz. destruct Hz as [Hz | Hz]; [lra |].
    unfold Rdiv in Hz. apply Rmult_integral in Hz.
    destruct Hz as [Hz | Hz].
    + apply Rmult_integral in Hz. lra.
    + assert (0 < / (2 * tau + theta)) by (apply Rinv_0_lt_compat; lra). lra.
  - intros ->. unfold Rdiv. ring.
Qed.

Lemma imc_gain_signs_witness :
  exists gains : PID R,
    imc (-1.5) 4.0 0 1.5 = Ok gains
    /\ 0 < -1.5 * Kp gains /\ 0 < -1.5 * Ki gains
    /\ 0 <= -1.5 * Kd gains
    /\ (Kd gains = 0 <-> 0 = 0).
Proof.
  apply (imc_gain_signs (-1.5) 4.0 0 1.5); lra.
Defined.

(** The gains a rule returns on valid parameters, in closed form. *)
Lemma imc_valid_value (k_p tau theta tau_c : R) :
  k_p <> 0 -> 0 < tau -> 0 <= theta -> 0 < tau_c ->
  imc k_p tau theta tau_c =
    Ok (mkPID (1 / k_p * (tau + 0.5 * theta) / (tau_c + 0.5 * theta))
              (1 / k_p * (tau + 0.5 * theta) / (tau_c + 0.5 * theta)
                 / (tau + 0.5 * theta))
              (1 / k_p * (tau + 0.5 * theta) / (tau_c + 0.5 * theta)
                 * (tau * theta / (2 * tau + theta)))).
Proof.
  intros HK Ht Hth Hc. rewrite imc_value by assumption. cbv zeta.
  now rewrite !Reqb_false by lra.
Qed.

(** X11.  The three FOPDT rules keep the loop gain: multiplying the process
    gain by [c <> 0] divides each of the three controller gains by [c]. *)
Theorem process_gain_scaling (k_p tau theta tau_c c : R) :
  k_p <> 0 -> c <> 0 -> 0 < tau -> 0 < theta -> 0 < tau_c ->
  exists zn cc im : PID R,
    ziegler_nichols_open_loop k_p tau theta = Ok zn
    /\ cohen_coon k_p tau theta = Ok cc
    /\ imc k_p tau theta tau_c = Ok im
    /\ ziegler_nichols_open_loop (c * k_p) tau theta =
         Ok (mkPID (Kp zn / c) (Ki zn / c) (Kd zn / c))
    /\ cohen_coon (c * k_p) tau theta =
         Ok (mkPID (Kp cc / c) (Ki cc / c) (Kd cc / c))
    /\ imc (c * k_p) tau theta tau_c =
         Ok (mkPID (Kp im / c) (Ki im / c) (Kd im / c)).
Proof.
  intros HK Hc Ht Hth Htc.
  assert (HcK : c * k_p <> 0) by now apply Rmult_integral_contrapositive_currified.
  pose proof (cohen_coon_ti_pos tau theta Ht Hth) as Hti.
  assert (H13 : 13 * tau + 8 * theta <> 0) by lra.
  assert (H11 : 11 * tau + 2 * theta <> 0) by lra.
  assert (H32 : 32 * tau + 6 * theta <> 0) by lra.
  do 3 eexists.
  split; [now apply zn_open_loop_value |].
  split; [now apply cohen_coon_value |].
  split; [apply imc_valid_value; (assumption || lra) |].
  cbn [Kp Ki Kd].
  split; [| split].
  - rewrite zn_open_loop_value by assumption.
    do 2 f_equal; decimals; field; repeat split; lra.
  - rewrite cohen_coon_value by assumption.
    do 2 f_equal; field; repeat split; lra.
  - rewrite imc_valid_value by (assumption || lra).
    do 2 f_equal; decimals; field; repeat split; lra.
Qed.

Lemma process_gain_scaling_witness :
  exists zn cc im : PID R,
    ziegler_nichols_open_loop 1.5 4 1 = Ok zn
    /\ cohen_coon 1.5 4 1 = Ok cc
    /\ imc 1.5 4 1 2 = Ok im
    /\ ziegler_nichols_open_loop (-3 * 1.5) 4 1 =
         Ok (mkPID (Kp zn / -3) (Ki zn / -3) (Kd zn / -3))
    /\ cohen_coon (-3 * 1.5) 4 1 =
         Ok (mkPID (Kp cc / -3) (Ki cc / -3) (Kd cc / -3))
    /\ imc (-3 * 1.5) 4 1 2 =
         Ok (mkPID (Kp im / -3) (Ki im / -3) (Kd im / -3)).
Proof.
  apply (process_gain_scaling 1.5 4 1 2 (-3)); lra.
Defined.

(** X12.  The three FOPDT rules are consistent under a change of the time
    unit: with every time ([tau], [theta], [tau_c]) multiplied by [c > 0]
    the proportional gain is unchanged, the integral gain is divided by [c]
    and the derivative gain is multiplied by [c]. *)
Theorem time_scaling (k_p tau theta tau_c c : R) :
  k_p <> 0 -> 0 < c -> 0 < tau -> 0 < theta -> 0 < tau_c ->
  exists zn cc im : PID R,
    ziegler_nichols_open_loop k_p tau theta = Ok zn
    /\ cohen_coon k_p tau theta = Ok cc
    /\ imc k_p tau theta tau_c = Ok im
    /\ ziegler_nichols_open_loop k_p (c * tau) (c * theta) =
         Ok (mkPID (Kp zn) (Ki zn / c) (Kd zn * c))
    /\ cohen_coon k_p (c * tau) (c * theta) =
         Ok (mkPID (Kp cc) (Ki cc / c) (Kd cc * c))
    /\ imc k_p (c * tau) (c * theta) (c * tau_c) =
         Ok (mkPID (Kp im) (Ki im / c) (Kd im * c)).
Proof.
  intros HK Hc Ht Hth Htc.
  assert (Hct : 0 < c * tau) by now apply Rmult_lt_0_compat.
  assert (Hcth : 0 < c * theta) by now apply Rmult_lt_0_compat.
  assert (Hctc : 0 < c * tau_c) by now apply Rmult_lt_0_compat.
  do 3 eexists.
  split; [now apply zn_open_loop_value |].
  split; [now apply cohen_coon_value |].
  split; [apply imc_valid_value; (assumption || lra) |].
  cbn [Kp Ki Kd].
  split; [| split].
  - rewrite zn_open_loop_value by assumption.
    do 2 f_equal; decimals; field; repeat split; lra.
  - rewrite cohen_coon_value by assumption.
    do 2 f_equal; field; repeat split; lra.
  - rewrite imc_valid_value by (assumption || lra).
    do 2 f_equal; decimals; field; repeat split; lra.
Qed.

Lemma time_scaling_witness :
  exists zn cc im : PID R,
    ziegler_nichols_open_loop 1.5 4 1 = Ok zn
    /\ cohen_coon 1.5 4 1 = Ok cc
    /\ imc 1.5 4 1 2 = Ok im
    /\ ziegler_nichols_open_loop 1.5 (60 * 4) (60 * 1) =
         Ok (mkPID (Kp zn) (Ki zn / 60) (Kd zn * 60))
    /\ cohen_coon 1.5 (60 * 4) (60 * 1) =
         Ok (mkPID (Kp cc) (Ki cc / 60) (Kd cc * 60))
    /\ imc 1.5 (60 * 4) (60 * 1) (60 * 2) =
         Ok (mkPID (Kp im) (Ki im / 60) (Kd im * 60)).
Proof.
  apply (time_scaling 1.5 4 1 2 60); lra.
Defined.

(** X13.  On every valid FOPDT plant with dead time, Cohen-Coon returns a
    proportional gain of larger magnitude than Ziegler-Nichols open-loop
    (both with the sign of the process gain): it is the more aggressive
    rule. *)
Theorem cohen_coon_more_aggressive (k_p tau theta : R) :
  k_p <> 0 -> 0 < tau -> 0 < theta ->
  exists zn cc : PID R,
    ziegler_nichols_open_loop k_p tau theta = Ok zn
    /\ cohen_coon k_p tau theta = Ok cc
    /\ 0 < k_p * Kp zn < k_p * Kp cc
    /\ Rabs (Kp zn) < Rabs (Kp cc).
Proof.
  intros HK Ht Hth.
  do 2 eexists.
  split; [now apply zn_open_loop_value |].
  split; [now apply cohen_coon_value |].
  cbn [Kp].
  assert (Hzn : k_p * (1.2 * tau / (k_p * theta)) = 1.2 * (tau / theta))
    by (decimals; field; split; lra).
  assert (Hcc : k_p * (tau / (k_p * theta) * (4 / 3 + theta / (4 * tau)))
                = tau / theta * (4 / 3 + theta / (4 * tau)))
    by (field; repeat split; lra).
  assert (Hr : 0 < tau / theta) by now apply Rdiv_pos.
  assert (Hq : 0 < theta / (4 * tau)) by (apply Rdiv_pos; lra).
  assert (Hord : 0 < k_p * (1.2 * tau / (k_p * theta))
                 < k_p * (tau / (k_p * theta) * (4 / 3 + theta / (4 * tau)))).
  { rewrite Hzn, Hcc. split; [lra | nra]. }
  split; [exact Hord |].
  apply (Rmult_lt_reg_l (Rabs k_p)); [now apply Rabs_pos_lt |].
  rewrite <- !Rabs_mult.
  rewrite !Rabs_right by lra. lra.
Qed.

Lemma cohen_coon_more_aggressive_witness :
  exists zn cc : PID R,
    ziegler_nichols_open_loop 1.5 4 1 = Ok zn
    /\ cohen_coon 1.5 4 1 = Ok cc
    /\ 0 < 1.5 * Kp zn < 1.5 * Kp cc
    /\ Rabs (Kp zn) < Rabs (Kp cc).
Proof.
  apply (cohen_coon_more_aggressive 1.5 4 1); lra.
Defined.

(** X14.  A larger closed-loop time constant gives a gentler IMC
    controller: for [tau > 0], [theta >= 0] and [0 < tau_c1 < tau_c2] the
    proportional gain at [tau_c2] is smaller in magnitude than at
    [tau_c1]. *)
Theorem imc_tau_c_monotone (k_p tau theta tau_c1 tau_c2 : R) :
  k_p <> 0 -> 0 < tau -> 0 <= theta -> 0 < tau_c1 -> tau_c1 < tau_c2 ->
  exists g1 g2 : PID R,
    imc k_p tau theta tau_c1 = Ok g1
    /\ imc k_p tau theta tau_c2 = Ok g2
    /\ 0 < k_p * Kp g2 < k_p * Kp g1
    /\ Rabs (Kp g2) < Rabs (Kp g1).
Proof.
  intros HK Ht Hth Hc1 Hc12.
  do 2 eexists.
  split; [apply imc_valid_value; (assumption || lra) |].
  split; [apply imc_valid_value; (assumption || lra) |].
  cbn [Kp].
  assert (HA : forall tc, 0 < tc ->
            k_p * (1 / k_p * (tau + 0.5 * theta) / (tc + 0.5 * theta))
            = (tau + 0.5 * theta) * / (tc + 0.5 * theta)).
  { intros tc Htc. decimals. field. split; lra. }
  assert (Hinv : / (tau_c2 + 0.5 * theta) < / (tau_c1 + 0.5 * theta)).
  { apply Rinv_lt_contravar; [| lra]. apply Rmult_lt_0_compat; lra. }
  assert (Hinv0 : 0 < / (tau_c2 + 0.5 * theta))
    by (apply Rinv_0_lt_compat; lra).
  assert (Hord : 0 < k_p * (1 / k_p * (tau + 0.5 * theta) / (tau_c2 + 0.5 * theta))
                 < k_p * (1 / k_p * (tau + 0.5 * theta) / (tau_c1 + 0.5 * theta))).
  { rewrite !HA by lra. split.
    - apply Rmult_lt_0_compat; lra.
    - apply Rmult_lt_compat_l; lra. }
  split; [exact Hord |].
  apply (Rmult_lt_reg_l (Rabs k_p)); [now apply Rabs_pos_lt |].
  rewrite <- !Rabs_mult.
  rewrite !Rabs_right by lra. lra.
Qed.

Lemma imc_tau_c_monotone_witness :
  exists g1 g2 : PID R,
    imc 1.5 4 1 1 = Ok g1
    /\ imc 1.5 4 1 2 = Ok g2
    /\ 0 < 1.5 * Kp g2 < 1.5 * Kp g1
    /\ Rabs (Kp g2) < Rabs (Kp g1).
Proof.
  apply (imc_tau_c_monotone 1.5 4 1 1 2); lra.
Defined.

(** X15.  Whenever [ziegler_nichols_closed_loop] returns gains that are
    real numbers they are strictly positive, whatever the plant, and equal
    [0.6 Ku], [0.6 Ku w / pi] and [0.15 pi Ku / w] for the gain margin [Ku]
    and the phase-crossover frequency [w] that [control.margin] reports. *)
Theorem zn_closed_loop_positive (ct : Control) (g : TransferFunction)
    (gains : PID npfloat) (kp ki kd : R) :
  ziegler_nichols_closed_loop ct g = Ok gains ->
  Kp gains = Fin kp -> Ki gains = Fin ki -> Kd gains = Fin kd ->
  0 < kp /\ 0 < ki /\ 0 < kd
  /\ exists ku w : R,
       gain_margin_of ct g = Fin ku
       /\ phase_crossover_frequency_of ct g = Fin w
       /\ kp = 0.6 * ku /\ ki = 0.6 * ku * w / PI
       /\ kd = 0.15 * PI * ku / w.
Proof.
  intros Hret Hp Hi Hd.
  destruct (zn_closed_loop_finite_inv ct g gains Hret)
    as (ku & w & Hgm & Hwg & Hku & Hw).
  { now rewrite Hp. }
  { now rewrite Hi. }
  rewrite (zn_closed_loop_finite ct g ku w Hgm Hwg Hku Hw) in Hret.
  injection Hret as <-. cbn in Hp, Hi, Hd.
  injection Hp as <-. injection Hi as <-. injection Hd as <-.
  pose proof PI_RGT_0 as Hpi.
  assert (Hki : 0.6 * ku / (2 * PI / w / 2) = 0.6 * ku * w / PI)
    by (decimals; field; split; lra).
  assert (Hkd : 0.6 * ku * (2 * PI / w / 8) = 0.15 * PI * ku / w)
    by (decimals; field; lra).
  rewrite Hki, Hkd.
  split; [lra |].
  split; [apply Rdiv_pos; [| lra]; apply Rmult_lt_0_compat; lra |].
  split.
  { apply Rdiv_pos; [| lra].
    assert (0 < PI * ku) by (apply Rmult_lt_0_compat; lra).
    lra. }
  exists ku, w. repeat split; assumption || reflexivity.
Qed.

Lemma zn_closed_loop_positive_witness :
  0 < 0.6 * 8
  /\ 0 < 0.6 * 8 / (2 * PI / sqrt 3 / 2)
  /\ 0 < 0.6 * 8 * (2 * PI / sqrt 3 / 8).
Proof.
  destruct (zn_closed_loop_positive third_order_control (tf [1] [1; 3; 3; 1])
              (mkPID (Fin (0.6 * 8))
                     (Fin (0.6 * 8 / (2 * PI / sqrt 3 / 2)))
                     (Fin (0.6 * 8 * (2 * PI / sqrt 3 / 8))))
              (0.6 * 8) (0.6 * 8 / (2 * PI / sqrt 3 / 2))
              (0.6 * 8 * (2 * PI / sqrt 3 / 8))
              third_order_closed_loop eq_refl eq_refl eq_refl)
    as (H1 & H2 & H3 & _).
  repeat split; assumption.
Defined.

(** ** [transfer_functions.py]: the plant models *)

Lemma pade_value (theta : R) :
  0 < theta -> pade theta = Ok ([-1; 2 / theta], [1; 2 / theta]).
Proof.
  intros Hth. unfold pade.
  rewrite Rleb_true, Reqb_false by lra. cbn [negb].
  assert (Hcd : 1 * (theta * 1 / 2 / 1) <> 0) by lra.
  rewrite !pydiv_ok by exact Hcd. rewrite !bind_ok.
  do 2 f_equal; repeat (f_equal; try (field; lra)).
Qed.

Lemma dead_time_tf_value (theta : R) :
  0 < theta ->
  dead_time_tf theta = Ok (mkTF [-1; 2 / theta] [1; 2 / theta]).
Proof.
  intros Hth. unfold dead_time_tf.
  rewrite Rltb_true, pade_value by assumption. rewrite bind_ok.
  unfold tf. cbn. now rewrite !Reqb_false by lra.
Qed.

Lemma dead_time_tf_none (theta : R) :
  theta <= 0 -> dead_time_tf theta = Ok (mkTF [1] [1]).
Proof.
  intros Hth. unfold dead_time_tf. now rewrite Rltb_false.
Qed.

Lemma dead_time_tf_returns (theta : R) :
  exists d, dead_time_tf theta = Ok d.
Proof.
  destruct (Rlt_dec 0 theta) as [H | H].
  - eexists. now apply dead_time_tf_value.
  - eexists. apply dead_time_tf_none. lra.
Qed.

Lemma first_order_value (Kp tau theta : R) :
  0 < tau -> 0 <= theta ->
  exists d,
    dead_time_tf theta = Ok d
    /\ FirstOrderTransferFunction Kp tau theta =
         Ok (FirstOrder.mk Kp tau theta (tf_mul (tf [Kp] [tau; 1]) d)).
Proof.
  intros Ht Hth. destruct (dead_time_tf_returns theta) as [d Hd].
  exists d. split; [exact Hd |].
  unfold FirstOrderTransferFunction.
  now rewrite Rleb_false, Rltb_false, Hd by lra.
Qed.

Lemma second_order_value (Kp omega_n zeta theta : R) :
  0 < omega_n -> 0 < zeta -> 0 <= theta ->
  exists d,
    dead_time_tf theta = Ok d
    /\ SecondOrderTransferFunction Kp omega_n zeta theta =
         Ok (SecondOrder.mk Kp omega_n zeta theta
               (tf_mul (tf [Kp * omega_n ^ 2]
                           [1; 2 * zeta * omega_n; omega_n ^ 2]) d)).
Proof.
  intros Hw Hz Hth. destruct (dead_time_tf_returns theta) as [d Hd].
  exists d. split; [exact Hd |].
  unfold SecondOrderTransferFunction.
  now rewrite !Rleb_false, Rltb_false, Hd by lra.
Qed.

(** X16.  [FirstOrderTransferFunction] builds a model exactly when
    [tau > 0] and [theta >= 0], for any process gain (zero included), and
    then stores the three parameters unchanged.  A non-positive [tau] raises
    the time-constant [ValueError], also when [theta] is negative too; a
    negative [theta] with a valid [tau] raises the dead-time
    [ValueError]. *)
Theorem first_order_outcome (Kp tau theta : R) :
  ((exists m, FirstOrderTransferFunction Kp tau theta = Ok m)
     <-> 0 < tau /\ 0 <= theta)
  /\ (tau <= 0 ->
      FirstOrderTransferFunction Kp tau theta =
        Raise (ValueError TfMsg.tau_not_positive))
  /\ (0 < tau -> theta < 0 ->
      FirstOrderTransferFunction Kp tau theta =
        Raise (ValueError TfMsg.theta_negative))
  /\ (forall m, FirstOrderTransferFunction Kp tau theta = Ok m ->
      FirstOrder.Kp m = Kp /\ FirstOrder.tau m = tau
      /\ FirstOrder.theta m = theta).
Proof.
  assert (Htau : tau <= 0 ->
            FirstOrderTransferFunction Kp tau theta =
              Raise (ValueError TfMsg.tau_not_positive)).
  { intros H. unfold FirstOrderTransferFunction. now rewrite Rleb_true. }
  assert (Hth : 0 < tau -> theta < 0 ->
            FirstOrderTransferFunction Kp tau theta =
              Raise (ValueError TfMsg.theta_negative)).
  { intros H H'. unfold FirstOrderTransferFunction.
    now rewrite Rleb_false, Rltb_true. }
  split; [split | split; [exact Htau | split; [exact Hth |]]].
  - intros [m H].
    destruct (Rle_dec tau 0) as [H1 | H1].
    { rewrite Htau in H by assumption. discriminate. }
    destruct (Rlt_dec theta 0) as [H2 | H2].
    { rewrite Hth in H by lra. discriminate. }
    lra.
  - intros [H1 H2].
    destruct (first_order_value Kp tau theta H1 H2) as (d & _ & E).
    eexists. exact E.
  - intros m H.
    destruct (Rle_dec tau 0) as [H1 | H1].
    { rewrite Htau in H by assumption. discriminate. }
    destruct (Rlt_dec theta 0) as [H2 | H2].
    { rewrite Hth in H by lra. discriminate. }
    destruct (first_order_value Kp tau theta) as (d & _ & E); try lra.
    rewrite E in H. injection H as <-. cbn. auto.
Qed.

Lemma first_order_outcome_witness :
  (exists m, FirstOrderTransferFunction 0 3 0 = Ok m)
  /\ FirstOrderTransferFunction 2 (-3) (-1) =
       Raise (ValueError TfMsg.tau_not_positive)
  /\ FirstOrderTransferFunction 2 3 (-1) =
       Raise (ValueError TfMsg.theta_negative).
Proof.
  destruct (first_order_outcome 0 3 0) as (H1 & _).
  destruct (first_order_outcome 2 (-3) (-1)) as (_ & H2 & _).
  destruct (first_order_outcome 2 3 (-1)) as (_ & _ & H3 & _).
  repeat split.
  - apply H1. split; lra.
  - apply H2. lra.
  - apply H3; lra.
Defined.

(** X17.  [SecondOrderTransferFunction] builds a model exactly when
    [omega_n > 0], [zeta > 0] and [theta >= 0], for any process gain; the
    checks run in that order, so the first parameter out of range decides
    the message. *)
Theorem second_order_outcome (Kp omega_n zeta theta : R) :
  ((exists m, SecondOrderTransferFunction Kp omega_n zeta theta = Ok m)
     <-> 0 < omega_n /\ 0 < zeta /\ 0 <= theta)
  /\ (omega_n <= 0 ->
      SecondOrderTransferFunction Kp omega_n zeta theta =
        Raise (ValueError TfMsg.omega_n_not_positive))
  /\ (0 < omega_n -> zeta <= 0 ->
      SecondOrderTransferFunction Kp omega_n zeta theta =
        Raise (ValueError TfMsg.zeta_not_positive))
  /\ (0 < omega_n -> 0 < zeta -> theta < 0 ->
      SecondOrderTransferFunction Kp omega_n zeta theta =
        Raise (ValueError TfMsg.theta_negative)).
Proof.
  assert (Hw : omega_n <= 0 ->
            SecondOrderTransferFunction Kp omega_n zeta theta =
              Raise (ValueError TfMsg.omega_n_not_positive)).
  { intros H. unfold SecondOrderTransferFunction. now rewrite Rleb_true. }
  assert (Hz : 0 < omega_n -> zeta <= 0 ->
            SecondOrderTransferFunction Kp omega_n zeta theta =
              Raise (ValueError TfMsg.zeta_not_positive)).
  { intros H H'. unfold SecondOrderTransferFunction.
    now rewrite Rleb_false, Rleb_true. }
  assert (Hth : 0 < omega_n -> 0 < zeta -> theta < 0 ->
            SecondOrderTransferFunction Kp omega_n zeta theta =
              Raise (ValueError TfMsg.theta_negative)).
  { intros H H' H''. unfold SecondOrderTransferFunction.
    now rewrite !Rleb_false, Rltb_true. }
  split; [split | auto].
  - intros [m H].
    destruct (Rle_dec omega_n 0) as [H1 | H1].
    { rewrite Hw in H by assumption. discriminate. }
    destruct (Rle_dec zeta 0) as [H2 | H2].
    { rewrite Hz in H by lra. discriminate. }
    destruct (Rlt_dec theta 0) as [H3 | H3].
    { rewrite Hth in H by lra. discriminate. }
    lra.
  - intros (H1 & H2 & H3).
    destruct (second_order_value Kp omega_n zeta theta H1 H2 H3) as (d & _ & E).
    eexists. exact E.
Qed.

Lemma second_order_outcome_witness :
  (exists m, SecondOrderTransferFunction 1 5 0.5 0.5 = Ok m)
  /\ SecondOrderTransferFunction 1 0 (-0.5) (-1) =
       Raise (ValueError TfMsg.omega_n_not_positive)
  /\ SecondOrderTransferFunction 1 5 0 (-1) =
       Raise (ValueError TfMsg.zeta_not_positive)
  /\ SecondOrderTransferFunction 1 5 0.5 (-0.5) =
       Raise (ValueError TfMsg.theta_negative).
Proof.
  destruct (second_order_outcome 1 5 0.5 0.5) as (H1 & _).
  destruct (second_order_outcome 1 0 (-0.5) (-1)) as (_ & H2 & _).
  destruct (second_order_outcome 1 5 0 (-1)) as (_ & _ & H3 & _).
  destruct (second_order_outcome 1 5 0.5 (-0.5)) as (_ & _ & _ & H4).
  repeat split.
  - apply H1. repeat split; lra.
  - apply H2. lra.
  - apply H3; lra.
  - apply H4; lra.
Defined.

(** The dead-time factor as a rational function. *)
Lemma dead_time_eval (theta : R) (d : TransferFunction) (s : complex) :
  dead_time_tf theta = Ok d ->
  (theta <= 0 -> polyval (num d) s = Cof 1 /\ polyval (den d) s = Cof 1)
  /\ (0 < theta ->
      polyval (num d) s = Csub (Cof (2 / theta)) s
      /\ polyval (den d) s = Cadd s (Cof (2 / theta))).
Proof.
  intros Hd. split; intros Hth.
  - rewrite dead_time_tf_none in Hd by assumption. injection Hd as <-.
    destruct s as [x y]. split; complex_field.
  - rewrite dead_time_tf_value in Hd by assumption. injection Hd as <-.
    destruct s as [x y]. split; complex_field.
Qed.

Lemma first_order_inv (Kp tau theta : R) (m : FirstOrder.t) :
  FirstOrderTransferFunction Kp tau theta = Ok m ->
  0 < tau /\ 0 <= theta
  /\ exists d, dead_time_tf theta = Ok d
               /\ FirstOrder.tf_model m = tf_mul (tf [Kp] [tau; 1]) d.
Proof.
  intros H. unfold FirstOrderTransferFunction, Rleb, Rltb in H.
  destruct (Rle_dec tau 0) as [H1 | H1]; [discriminate |].
  destruct (Rlt_dec theta 0) as [H2 | H2]; [discriminate |].
  destruct (dead_time_tf theta) as [d | e] eqn:Ed; [| discriminate].
  cbn in H. injection H as <-.
  repeat split; try lra. now exists d.
Qed.

Lemma second_order_inv (Kp omega_n zeta theta : R) (m : SecondOrder.t) :
  SecondOrderTransferFunction Kp omega_n zeta theta = Ok m ->
  0 < omega_n /\ 0 < zeta /\ 0 <= theta
  /\ exists d, dead_time_tf theta = Ok d
               /\ SecondOrder.tf_model m =
                    tf_mul (tf [Kp * omega_n ^ 2]
                               [1; 2 * zeta * omega_n; omega_n ^ 2]) d.
Proof.
  intros H. unfold SecondOrderTransferFunction, Rleb, Rltb in H.
  destruct (Rle_dec omega_n 0) as [H1 | H1]; [discriminate |].
  destruct (Rle_dec zeta 0) as [H2 | H2]; [discriminate |].
  destruct (Rlt_dec theta 0) as [H3 | H3]; [discriminate |].
  destruct (dead_time_tf theta) as [d | e] eqn:Ed; [| discriminate].
  cbn in H. injection H as <-.
  repeat split; try lra. now exists d.
Qed.

(** The delay-free parts as rational functions. *)
Lemma first_order_lag_eval (Kp tau : R) (s : complex) :
  polyval [Kp] s = Cof Kp
  /\ polyval [tau; 1] s = Cadd (Cmul (Cof tau) s) (Cof 1).
Proof. destruct s as [x y]. split; complex_field. Qed.

Lemma second_order_lag_eval (Kp omega_n zeta : R) (s : complex) :
  polyval [Kp * omega_n ^ 2] s = Cof (Kp * omega_n ^ 2)
  /\ polyval [1; 2 * zeta * omega_n; omega_n ^ 2] s =
       Cadd (Cadd (Cmul s s) (Cmul (Cof (2 * zeta * omega_n)) s))
            (Cof (omega_n ^ 2)).
Proof. destruct s as [x y]. split; complex_field. Qed.

(** The first-order model as a rational function. *)
Lemma first_order_eval (Kp tau theta : R) (m : FirstOrder.t) (s : complex) :
  FirstOrderTransferFunction Kp tau theta = Ok m ->
  let lag := Cadd (Cmul (Cof tau) s) (Cof 1) in
  (theta = 0 ->
   polyval (num (FirstOrder.tf_model m)) s = Cof Kp
   /\ polyval (den (FirstOrder.tf_model m)) s = lag)
  /\ (0 < theta ->
      polyval (num (FirstOrder.tf_model m)) s =
        Cmul (Cof Kp) (Csub (Cof (2 / theta)) s)
      /\ polyval (den (FirstOrder.tf_model m)) s =
           Cmul lag (Cadd s (Cof (2 / theta)))).
Proof.
  intros H lag. subst lag.
  destruct (first_order_inv _ _ _ _ H) as (Ht & Hth & d & Hd & ->).
  destruct (dead_time_eval theta d s Hd) as [H0 H1].
  destruct (first_order_lag_eval Kp tau s) as [HN HD].
  split; intros Hcase; eval_tf; rewrite HN, HD.
  - destruct H0 as [-> ->]; [lra |]. split; ring.
  - destruct (H1 Hcase) as [-> ->]. split; ring.
Qed.

(** X18.  The model that [FirstOrderTransferFunction] builds is
    [Kp / (tau s + 1)] when there is no dead time, and
    [Kp (2/theta - s) / ((tau s + 1) (s + 2/theta))] otherwise: the lag in
    series with the first-order Pade factor
    [(1 - theta s / 2) / (1 + theta s / 2)]. *)
Theorem first_order_model (Kp tau theta : R) (m : FirstOrder.t) (s : complex) :
  FirstOrderTransferFunction Kp tau theta = Ok m ->
  let lag := Cadd (Cmul (Cof tau) s) (Cof 1) in
  (theta = 0 ->
   polyval (num (FirstOrder.tf_model m)) s = Cof Kp
   /\ polyval (den (FirstOrder.tf_model m)) s = lag)
  /\ (0 < theta ->
      polyval (num (FirstOrder.tf_model m)) s =
        Cmul (Cof Kp) (Csub (Cof (2 / theta)) s)
      /\ polyval (den (FirstOrder.tf_model m)) s =
           Cmul lag (Cadd s (Cof (2 / theta)))).
Proof.
  apply first_order_eval.
Qed.

Lemma first_order_model_witness :
  exists m : FirstOrder.t,
    FirstOrderTransferFunction 2 3 1 = Ok m
    /\ polyval (num (FirstOrder.tf_model m)) (mkC 0 1) =
         Cmul (Cof 2) (Csub (Cof (2 / 1)) (mkC 0 1))
    /\ polyval (den (FirstOrder.tf_model m)) (mkC 0 1) =
         Cmul (Cadd (Cmul (Cof 3) (mkC 0 1)) (Cof 1))
              (Cadd (mkC 0 1) (Cof (2 / 1))).
Proof.
  destruct (first_order_value 2 3 1) as (d & _ & E); try lra.
  eexists. split; [exact E |].
  apply (proj2 (first_order_model 2 3 1 _ (mkC 0 1) E)). lra.
Defined.

(** The second-order model as a rational function. *)
Lemma second_order_eval (Kp omega_n zeta theta : R) (m : SecondOrder.t)
    (s : complex) :
  SecondOrderTransferFunction Kp omega_n zeta theta = Ok m ->
  let lag := Cadd (Cadd (Cmul s s) (Cmul (Cof (2 * zeta * omega_n)) s))
                  (Cof (omega_n ^ 2)) in
  (theta = 0 ->
   polyval (num (SecondOrder.tf_model m)) s = Cof (Kp * omega_n ^ 2)
   /\ polyval (den (SecondOrder.tf_model m)) s = lag)
  /\ (0 < theta ->
      polyval (num (SecondOrder.tf_model m)) s =
        Cmul (Cof (Kp * omega_n ^ 2)) (Csub (Cof (2 / theta)) s)
      /\ polyval (den (SecondOrder.tf_model m)) s =
           Cmul lag (Cadd s (Cof (2 / theta)))).
Proof.
  intros H lag. subst lag.
  destruct (second_order_inv _ _ _ _ _ H) as (Hw & Hz & Hth & d & Hd & ->).
  destruct (dead_time_eval theta d s Hd) as [H0 H1].
  destruct (second_order_lag_eval Kp omega_n zeta s) as [HN HD].
  split; intros Hcase; eval_tf; rewrite HN, HD.
  - destruct H0 as [-> ->]; [lra |]. split; ring.
  - destruct (H1 Hcase) as [-> ->]. split; ring.
Qed.

(** X19.  The model that [SecondOrderTransferFunction] builds is
    [Kp wn^2 / (s^2 + 2 zeta wn s + wn^2)], in series with the Pade factor
    [(2/theta - s) / (s + 2/theta)] when there is dead time. *)
Theorem second_order_model (Kp omega_n zeta theta : R) (m : SecondOrder.t)
    (s : complex) :
  SecondOrderTransferFunction Kp omega_n zeta theta = Ok m ->
  let lag := Cadd (Cadd (Cmul s s) (Cmul (Cof (2 * zeta * omega_n)) s))
                  (Cof (omega_n ^ 2)) in
  (theta = 0 ->
   polyval (num (SecondOrder.tf_model m)) s = Cof (Kp * omega_n ^ 2)
   /\ polyval (den (SecondOrder.tf_model m)) s = lag)
  /\ (0 < theta ->
      polyval (num (SecondOrder.tf_model m)) s =
        Cmul (Cof (Kp * omega_n ^ 2)) (Csub (Cof (2 / theta)) s)
      /\ polyval (den (SecondOrder.tf_model m)) s =
           Cmul lag (Cadd s (Cof (2 / theta)))).
Proof.
  apply second_order_eval.
Qed.

Lemma second_order_model_witness :
  exists m : SecondOrder.t,
    SecondOrderTransferFunction 1 5 0.5 0 = Ok m
    /\ polyval (num (SecondOrder.tf_model m)) (mkC 0 1) = Cof (1 * 5 ^ 2)
    /\ polyval (den (SecondOrder.tf_model m)) (mkC 0 1) =
         Cadd (Cadd (Cmul (mkC 0 1) (mkC 0 1))
                    (Cmul (Cof (2 * 0.5 * 5)) (mkC 0 1)))
              (Cof (5 ^ 2)).
Proof.
  destruct (second_order_value 1 5 0.5 0) as (d & _ & E); try lra.
  eexists. split; [exact E |].
  apply (proj1 (second_order_model 1 5 0.5 0 _ (mkC 0 1) E)). reflexivity.
Defined.

(** ** Steady-state gain, magnitude and poles of the plant models *)

Lemma two_over_pos (theta : R) : 0 < theta -> 0 < 2 / theta.
Proof. intros H. apply Rdiv_pos; lra. Qed.

(** X20.  Both plant models have the steady-state gain [Kp]: at [s = 0] the
    numerator is [Kp] times the denominator and the denominator is not
    zero, with or without dead time (the Pade factor has unit gain at
    [s = 0]). *)
Theorem plant_dc_gain :
  (forall (Kp tau theta : R) (m : FirstOrder.t),
      FirstOrderTransferFunction Kp tau theta = Ok m ->
      polyval (num (FirstOrder.tf_model m)) (Cof 0) =
        Cmul (Cof Kp) (polyval (den (FirstOrder.tf_model m)) (Cof 0))
      /\ polyval (den (FirstOrder.tf_model m)) (Cof 0) <> Cof 0)
  /\ (forall (Kp omega_n zeta theta : R) (m : SecondOrder.t),
         SecondOrderTransferFunction Kp omega_n zeta theta = Ok m ->
         polyval (num (SecondOrder.tf_model m)) (Cof 0) =
           Cmul (Cof Kp) (polyval (den (SecondOrder.tf_model m)) (Cof 0))
         /\ polyval (den (SecondOrder.tf_model m)) (Cof 0) <> Cof 0).
Proof.
  split.
  - intros Kp tau theta m H.
    destruct (first_order_inv _ _ _ _ H) as (Ht & Hth & _).
    destruct (first_order_eval Kp tau theta m (Cof 0) H) as [H0 H1].
    destruct (Req_dec_T theta 0) as [E | E].
    + destruct (H0 E) as [-> ->]. split.
      * complex_field.
      * intros F. apply (f_equal re) in F. cbn in F. lra.
    + assert (Hpos : 0 < theta) by lra.
      pose proof (two_over_pos theta Hpos) as H2.
      destruct (H1 Hpos) as [-> ->]. split.
      * complex_field.
      * intros F. apply (f_equal re) in F. cbn in F. nra.
  - intros Kp omega_n zeta theta m H.
    destruct (second_order_inv _ _ _ _ _ H) as (Hw & Hz & Hth & _).
    destruct (second_order_eval Kp omega_n zeta theta m (Cof 0) H) as [H0 H1].
    assert (Hw2 : 0 < omega_n ^ 2) by nra.
    destruct (Req_dec_T theta 0) as [E | E].
    + destruct (H0 E) as [-> ->]. split.
      * complex_field.
      * intros F. apply (f_equal re) in F. cbn in F. nra.
    + assert (Hpos : 0 < theta) by lra.
      pose proof (two_over_pos theta Hpos) as H2.
      destruct (H1 Hpos) as [-> ->]. split.
      * complex_field.
      * intros F. apply (f_equal re) in F. cbn in F. nra.
Qed.

Lemma plant_dc_gain_witness :
  exists m : FirstOrder.t,
    FirstOrderTransferFunction 2 3 1 = Ok m
    /\ polyval (num (FirstOrder.tf_model m)) (Cof 0) =
         Cmul (Cof 2) (polyval (den (FirstOrder.tf_model m)) (Cof 0))
    /\ polyval (den (FirstOrder.tf_model m)) (Cof 0) <> Cof 0.
Proof.
  destruct (first_order_value 2 3 1) as (d & _ & E); try lra.
  eexists. split; [exact E |].
  exact (proj1 plant_dc_gain 2 3 1 _ E).
Defined.

(** X21.  The dead-time approximation changes the phase of the plant but
    not its gain: at every frequency [w] the squared magnitude of the
    first-order model is [Kp^2 / (1 + tau^2 w^2)] and that of the
    second-order model is
    [(Kp wn^2)^2 / ((wn^2 - w^2)^2 + (2 zeta wn w)^2)], whatever the dead
    time. *)
Theorem dead_time_all_pass :
  (forall (Kp tau theta : R) (m : FirstOrder.t) (w : R),
      FirstOrderTransferFunction Kp tau theta = Ok m ->
      Cnorm2 (polyval (num (FirstOrder.tf_model m)) (mkC 0 w))
        * (1 + tau ^ 2 * w ^ 2)
      = Kp ^ 2 * Cnorm2 (polyval (den (FirstOrder.tf_model m)) (mkC 0 w)))
  /\ (forall (Kp omega_n zeta theta : R) (m : SecondOrder.t) (w : R),
         SecondOrderTransferFunction Kp omega_n zeta theta = Ok m ->
         Cnorm2 (polyval (num (SecondOrder.tf_model m)) (mkC 0 w))
           * ((omega_n ^ 2 - w ^ 2) ^ 2 + (2 * zeta * omega_n * w) ^ 2)
         = (Kp * omega_n ^ 2) ^ 2
           * Cnorm2 (polyval (den (SecondOrder.tf_model m)) (mkC 0 w))).
Proof.
  split.
  - intros Kp tau theta m w H.
    destruct (first_order_inv _ _ _ _ H) as (Ht & Hth & _).
    destruct (first_order_eval Kp tau theta m (mkC 0 w) H) as [H0 H1].
    destruct (Req_dec_T theta 0) as [E | E].
    + destruct (H0 E) as [-> ->]. unfold Cnorm2. cbn. ring.
    + destruct H1 as [-> ->]; [lra |]. unfold Cnorm2. cbn. ring.
  - intros Kp omega_n zeta theta m w H.
    destruct (second_order_inv _ _ _ _ _ H) as (Hw & Hz & Hth & _).
    destruct (second_order_eval Kp omega_n zeta theta m (mkC 0 w) H)
      as [H0 H1].
    destruct (Req_dec_T theta 0) as [E | E].
    + destruct (H0 E) as [-> ->]. unfold Cnorm2. cbn. ring.
    + destruct H1 as [-> ->]; [lra |]. unfold Cnorm2. cbn. ring.
Qed.

Lemma dead_time_all_pass_witness :
  exists m : FirstOrder.t,
    FirstOrderTransferFunction 2 3 1 = Ok m
    /\ Cnorm2 (polyval (num (FirstOrder.tf_model m)) (mkC 0 5))
         * (1 + 3 ^ 2 * 5 ^ 2)
       = 2 ^ 2 * Cnorm2 (polyval (den (FirstOrder.tf_model m)) (mkC 0 5)).
Proof.
  destruct (first_order_value 2 3 1) as (d & _ & E); try lra.
  eexists. split; [exact E |].
  exact (proj1 dead_time_all_pass 2 3 1 _ 5 E).
Defined.

Lemma Cadd_real_zero (s : complex) (a : R) :
  Cadd s (Cof a) = Cof 0 <-> s = Cof (- a).
Proof.
  destruct s as [x y]. split; intros H.
  - apply (f_equal re) in H as Hr. apply (f_equal im) in H as Hi.
    cbn in Hr, Hi. apply complex_eq; cbn; lra.
  - apply (f_equal re) in H as Hr. apply (f_equal im) in H as Hi.
    cbn in Hr, Hi. apply complex_eq; cbn; lra.
Qed.

Lemma first_order_lag_root (tau : R) (s : complex) :
  0 < tau ->
  Cadd (Cmul (Cof tau) s) (Cof 1) = Cof 0 <-> s = Cof (- 1 / tau).
Proof.
  intros Ht. destruct s as [x y]. split; intros H.
  - apply (f_equal re) in H as Hr. apply (f_equal im) in H as Hi.
    cbn in Hr, Hi.
    assert (Hy : y = 0) by nra.
    assert (Hx : x = - 1 / tau) by (field_simplify_eq; lra).
    apply complex_eq; cbn; lra.
  - apply (f_equal re) in H as Hr. apply (f_equal im) in H as Hi.
    cbn in Hr, Hi. subst x y.
    apply complex_eq; cbn; field; lra.
Qed.

(** X22.  For a process gain [Kp <> 0] (a model whose numerator is not
    zero) the poles of the first-order model are exactly [-1/tau] and, with
    dead time, [-2/theta]: real and negative, so the plant model is stable.
    With dead time its only zero is [2/theta], in the right half plane (the
    non-minimum-phase zero of the Pade factor). *)
Theorem first_order_poles_zeros (Kp tau theta : R) (m : FirstOrder.t)
    (s : complex) :
  Kp <> 0 ->
  FirstOrderTransferFunction Kp tau theta = Ok m ->
  all_zero (num (FirstOrder.tf_model m)) = false
  /\ (is_pole (FirstOrder.tf_model m) s <->
       s = Cof (- 1 / tau) \/ (0 < theta /\ s = Cof (- (2 / theta))))
  /\ (is_pole (FirstOrder.tf_model m) s -> re s < 0 /\ im s = 0)
  /\ (0 < theta ->
      (is_zero (FirstOrder.tf_model m) s <-> s = Cof (2 / theta))).
Proof.
  intros HK H.
  assert (Hnum : all_zero (num (FirstOrder.tf_model m)) = false).
  { destruct (all_zero (num (FirstOrder.tf_model m))) eqn:Ez; [| reflexivity].
    exfalso.
    pose proof (all_zero_polyval _ (Cof 0) Ez) as Hz.
    destruct (first_order_inv _ _ _ _ H) as (Ht & Hth & _).
    destruct (first_order_eval Kp tau theta m (Cof 0) H) as [H0 H1].
    destruct (Req_dec_T theta 0) as [E | E].
    - destruct (H0 E) as [HN _]. rewrite HN in Hz.
      apply Cof_inj in Hz. contradiction.
    - destruct H1 as [HN _]; [lra |]. rewrite HN in Hz.
      apply (f_equal re) in Hz. cbn in Hz.
      assert (Hq : 0 < 2 / theta) by (apply two_over_pos; lra).
      apply HK. nra. }
  split; [exact Hnum |].
  destruct (first_order_inv _ _ _ _ H) as (Ht & Hth & _).
  destruct (first_order_eval Kp tau theta m s H) as [H0 H1].
  assert (Hpoles : is_pole (FirstOrder.tf_model m) s <->
            s = Cof (- 1 / tau) \/ (0 < theta /\ s = Cof (- (2 / theta)))).
  { unfold is_pole. destruct (Req_dec_T theta 0) as [E | E].
    - destruct (H0 E) as [_ ->]. rewrite first_order_lag_root by assumption.
      split; [auto | intros [? | [? _]]; [assumption | lra]].
    - destruct H1 as [_ ->]; [lra |]. split.
      + intros F. apply Cmul_integral in F. destruct F as [F | F].
        * left. now apply first_order_lag_root.
        * right. split; [lra |]. now apply Cadd_real_zero.
      + intros [F | [_ F]].
        * apply first_order_lag_root in F; [| assumption]. rewrite F. ring.
        * apply Cadd_real_zero in F. rewrite F. ring. }
  split; [exact Hpoles | split].
  - intros Hp. apply Hpoles in Hp. destruct Hp as [-> | [Hpos ->]]; cbn.
    + split; [| reflexivity].
      assert (0 < 1 / tau) by (apply Rdiv_pos; lra).
      unfold Rdiv in *. lra.
    + split; [| reflexivity]. pose proof (two_over_pos theta Hpos). lra.
  - intros Hpos. unfold is_zero. destruct (H1 Hpos) as [-> _]. split.
    + intros F. apply Cmul_integral in F. destruct F as [F | F].
      * apply Cof_inj in F. contradiction.
      * destruct s as [x y].
        apply (f_equal re) in F as Hr. apply (f_equal im) in F as Hi.
        cbn in Hr, Hi. apply complex_eq; cbn; lra.
    + intros ->. complex_field.
Qed.

Lemma first_order_poles_zeros_witness :
  exists m : FirstOrder.t,
    2 <> 0
    /\ FirstOrderTransferFunction 2 3 1 = Ok m
    /\ (is_pole (FirstOrder.tf_model m) (Cof (- (2 / 1))) <->
          Cof (- (2 / 1)) = Cof (- 1 / 3)
          \/ (0 < 1 /\ Cof (- (2 / 1)) = Cof (- (2 / 1)))).
Proof.
  destruct (first_order_value 2 3 1) as (d & _ & E); try lra.
  assert (HK : 2 <> 0) by lra.
  eexists. split; [exact HK | split; [exact E |]].
  exact (proj1 (proj2
           (first_order_poles_zeros 2 3 1 _ (Cof (- (2 / 1))) HK E))).
Defined.

Lemma second_order_lag_root (omega_n zeta : R) (s : complex) :
  0 < omega_n -> 0 < zeta ->
  Cadd (Cadd (Cmul s s) (Cmul (Cof (2 * zeta * omega_n)) s))
       (Cof (omega_n ^ 2)) = Cof 0 ->
  re s < 0.
Proof.
  intros Hw Hz H. destruct s as [x y].
  apply (f_equal re) in H as Hr. apply (f_equal im) in H as Hi.
  cbn in Hr, Hi. cbn.
  destruct (Rlt_dec x 0) as [Hx | Hx]; [assumption | exfalso].
  assert (Hzw : 0 < zeta * omega_n) by now apply Rmult_lt_0_compat.
  assert (Hy : y * (2 * x + 2 * zeta * omega_n) = 0) by lra.
  apply Rmult_integral in Hy. destruct Hy as [Hy | Hy]; [| lra].
  subst y. nra.
Qed.

(** X23.  The second-order model is stable, as the constructor's check on the
    damping ratio promises: every pole of the model it builds has a
    negative real part, with or without dead time. *)
Theorem second_order_stable (Kp omega_n zeta theta : R) (m : SecondOrder.t)
    (s : complex) :
  SecondOrderTransferFunction Kp omega_n zeta theta = Ok m ->
  is_pole (SecondOrder.tf_model m) s -> re s < 0.
Proof.
  intros H. unfold is_pole.
  destruct (second_order_inv _ _ _ _ _ H) as (Hw & Hz & Hth & _).
  destruct (second_order_eval Kp omega_n zeta theta m s H) as [H0 H1].
  destruct (Req_dec_T theta 0) as [E | E].
  - destruct (H0 E) as [_ ->]. now apply second_order_lag_root.
  - assert (Hpos : 0 < theta) by lra.
    destruct (H1 Hpos) as [_ ->]. intros F.
    apply Cmul_integral in F. destruct F as [F | F].
    + now apply (second_order_lag_root omega_n zeta).
    + apply Cadd_real_zero in F. rewrite F. cbn.
      pose proof (two_over_pos theta Hpos). lra.
Qed.

Lemma second_order_stable_witness :
  exists m : SecondOrder.t,
    SecondOrderTransferFunction 1 1 0.5 0 = Ok m
    /\ re (mkC (-0.5) (sqrt 3 / 2)) < 0.
Proof.
  destruct (second_order_value 1 1 0.5 0) as (d & _ & E); try lra.
  eexists. split; [exact E |].
  apply (second_order_stable 1 1 0.5 0 _ _ E).
  unfold is_pole.
  destruct (second_order_eval 1 1 0.5 0 _ (mkC (-0.5) (sqrt 3 / 2)) E)
    as [H0 _].
  destruct (H0 eq_refl) as [_ ->].
  assert (H3 : sqrt 3 * sqrt 3 = 3) by (apply sqrt_sqrt; lra).
  apply complex_eq; cbn; nra.
Defined.

(** ** The performance indices *)

Lemma sum_upto_nonneg (n : nat) (g : nat -> R) :
  (forall i, (i < n)%nat -> 0 <= g i) -> 0 <= sum_upto n g.
Proof.
  induction n as [| n IH]; intros Hg; cbn.
  - lra.
  - assert (0 <= sum_upto n g) by (apply IH; intros i Hi; apply Hg; lia).
    assert (0 <= g n) by (apply Hg; lia). lra.
Qed.

Lemma sum_upto_le (n : nat) (g h : nat -> R) :
  (forall i, (i < n)%nat -> g i <= h i) -> sum_upto n g <= sum_upto n h.
Proof.
  induction n as [| n IH]; intros Hgh; cbn.
  - lra.
  - assert (sum_upto n g <= sum_upto n h)
      by (apply IH; intros i Hi; apply Hgh; lia).
    assert (g n <= h n) by (apply Hgh; lia). lra.
Qed.

Lemma sum_upto_scale (n : nat) (c : R) (g : nat -> R) :
  sum_upto n (fun i => c * g i) = c * sum_upto n g.
Proof.
  induction n as [| n IH]; cbn; [ring | rewrite IH; ring].
Qed.

Lemma sum_upto_telescope (n : nat) (F : nat -> R) :
  sum_upto n (fun i => F (S i) - F i) = F n - F 0%nat.
Proof.
  induction n as [| n IH]; cbn; [ring | rewrite IH; ring].
Qed.

Lemma sum_upto_zero_terms (n : nat) (g : nat -> R) :
  (forall i, (i < n)%nat -> 0 <= g i) -> sum_upto n g = 0 ->
  forall i, (i < n)%nat -> g i = 0.
Proof.
  induction n as [| n IH]; intros Hg Hsum i Hi; [lia |].
  cbn in Hsum.
  assert (H1 : 0 <= sum_upto n g)
    by (apply sum_upto_nonneg; intros j Hj; apply Hg; lia).
  assert (H2 : 0 <= g n) by (apply Hg; lia).
  destruct (Nat.eq_dec i n) as [-> | Hne]; [lra |].
  apply IH; [intros j Hj; apply Hg; lia | lra | lia].
Qed.

Lemma nondecreasing_le (time : list R) (i j : nat) :
  nondecreasing time -> (i <= j)%nat -> (j < length time)%nat ->
  sample time i <= sample time j.
Proof.
  intros Hmono Hij Hj. induction j as [| j IH].
  - replace i with 0%nat by lia. lra.
  - destruct (Nat.eq_dec i (S j)) as [-> | Hne]; [lra |].
    assert (sample time i <= sample time j) by (apply IH; lia).
    assert (sample time j <= sample time (S j)) by (apply Hmono; lia).
    lra.
Qed.

Lemma trapezoidal_rule_nonneg (n : nat) (t f : nat -> R) :
  (forall i, (S i < n)%nat -> t i <= t (S i)) ->
  (forall i, (i < n)%nat -> 0 <= f i) ->
  0 <= trapezoidal_rule n t f.
Proof.
  intros Ht Hf. unfold trapezoidal_rule. apply sum_upto_nonneg.
  intros i Hi.
  assert (t i <= t (S i)) by (apply Ht; lia).
  assert (0 <= f i) by (apply Hf; lia).
  assert (0 <= f (S i)) by (apply Hf; lia).
  nra.
Qed.

(** X24.  On a time grid that does not go back, with equally many outputs
    and at least two samples, IAE and ISE are non-negative numbers; when the
    grid starts at a non-negative time, so are ITAE and ITSE. *)
Theorem indices_nonnegative (time output : list R) (setpoint : R) :
  length time = length output -> (2 <= length time)%nat ->
  nondecreasing time ->
  exists iae ise itae itse : R,
    calculate_performance_indices time output setpoint =
      mkIndices (Fin iae) (Fin ise) (Fin itae) (Fin itse)
    /\ 0 <= iae /\ 0 <= ise
    /\ (0 <= sample time 0 -> 0 <= itae /\ 0 <= itse).
Proof.
  intros Hlen Hn Hmono.
  do 4 eexists. split.
  { apply calculate_performance_indices_value; assumption. }
  assert (Hstep : forall i, (S i < length time)%nat ->
            sample time i <= sample time (S i)) by exact Hmono.
  split; [| split].
  - apply trapezoidal_rule_nonneg; [exact Hstep |].
    intros i _. apply Rabs_pos.
  - apply trapezoidal_rule_nonneg; [exact Hstep |].
    intros i _. apply pow2_ge_0.
  - intros H0.
    assert (Hpos : forall i, (i < length time)%nat -> 0 <= sample time i).
    { intros i Hi.
      assert (sample time 0 <= sample time i)
        by (apply nondecreasing_le; [assumption | lia | assumption]).
      lra. }
    split; apply trapezoidal_rule_nonneg; try exact Hstep; intros i Hi.
    + apply Rmult_le_pos; [now apply Hpos | apply Rabs_pos].
    + apply Rmult_le_pos; [now apply Hpos | apply pow2_ge_0].
Qed.

Lemma ramp_grid_nondecreasing : nondecreasing [0; 1; 2].
Proof.
  intros i Hi. cbn in Hi.
  destruct i as [| [| i]]; cbn; try lra. lia.
Qed.

Lemma indices_nonnegative_witness :
  exists iae ise itae itse : R,
    calculate_performance_indices [0; 1; 2] [0; 0.5; 1] 1 =
      mkIndices (Fin iae) (Fin ise) (Fin itae) (Fin itse)
    /\ 0 <= iae /\ 0 <= ise
    /\ (0 <= sample [0; 1; 2] 0 -> 0 <= itae /\ 0 <= itse).
Proof.
  apply (indices_nonnegative [0; 1; 2] [0; 0.5; 1] 1).
  - reflexivity.
  - cbn. lia.
  - exact ramp_grid_nondecreasing.
Defined.

(** X25.  On a strictly increasing time grid IAE is zero exactly when the
    output sits on the set point at every sample, and then the other three
    indices are zero too. *)
Theorem perfect_tracking (time output : list R) (setpoint : R) :
  length time = length output -> (2 <= length time)%nat ->
  (forall i, (S i < length time)%nat -> sample time i < sample time (S i)) ->
  (IAE (calculate_performance_indices time output setpoint) = Fin 0
     <-> forall i, (i < length output)%nat -> sample output i = setpoint)
  /\ ((forall i, (i < length output)%nat -> sample output i = setpoint) ->
      calculate_performance_indices time output setpoint =
        mkIndices (Fin 0) (Fin 0) (Fin 0) (Fin 0)).
Proof.
  intros Hlen Hn Hinc.
  rewrite calculate_performance_indices_value by assumption. cbv zeta.
  cbn [IAE].
  assert (Hzero : (forall i, (i < length output)%nat -> sample output i = setpoint) ->
            forall (f : R -> R), f 0 = 0 ->
            forall (wgt : nat -> R),
              trapezoidal_rule (length time) (sample time)
                (fun i => wgt i * f (error_at setpoint output i)) = 0).
  { intros Hout f Hf wgt. unfold trapezoidal_rule.
    rewrite (sum_upto_ext _ _ (fun _ => 0)).
    - clear. induction (length time - 1)%nat; cbn; lra.
    - intros i Hi. unfold error_at.
      rewrite !Hout by lia. rewrite Rminus_diag, Hf. unfold Rdiv. ring. }
  split; [split |].
  - intros H. injection H as H. unfold trapezoidal_rule in H.
    assert (Hterms : forall i, (i < length time - 1)%nat ->
              (sample time (S i) - sample time i)
              * (Rabs (error_at setpoint output i)
                 + Rabs (error_at setpoint output (S i))) / 2 = 0).
    { apply sum_upto_zero_terms; [| exact H].
      intros i Hi.
      assert (sample time i < sample time (S i)) by (apply Hinc; lia).
      pose proof (Rabs_pos (error_at setpoint output i)).
      pose proof (Rabs_pos (error_at setpoint output (S i))).
      nra. }
    intros i Hi.
    assert (Hpair : forall j, (j < length time - 1)%nat ->
              Rabs (error_at setpoint output j) = 0
              /\ Rabs (error_at setpoint output (S j)) = 0).
    { intros j Hj. specialize (Hterms j Hj).
      assert (sample time j < sample time (S j)) by (apply Hinc; lia).
      pose proof (Rabs_pos (error_at setpoint output j)).
      pose proof (Rabs_pos (error_at setpoint output (S j))).
      split; nra. }
    assert (Habs : Rabs (error_at setpoint output i) = 0).
    { destruct i as [| i].
      - apply (Hpair 0%nat). lia.
      - apply (Hpair i). lia. }
    unfold error_at in Habs.
    destruct (Req_dec_T (setpoint - sample output i) 0) as [E | E]; [lra |].
    apply Rabs_no_R0 in E. contradiction.
  - intros Hout. f_equal.
    rewrite (trapezoidal_rule_ext _ _ _
               (fun i => 1 * Rabs (error_at setpoint output i)))
      by (intros; ring).
    apply (Hzero Hout Rabs Rabs_R0).
  - intros Hout.
    assert (Hsq : (fun e : R => e ^ 2) 0 = 0) by (cbn; ring).
    f_equal; f_equal.
    + rewrite (trapezoidal_rule_ext _ _ _
                 (fun i => 1 * Rabs (error_at setpoint output i)))
        by (intros; ring).
      apply (Hzero Hout Rabs Rabs_R0).
    + rewrite (trapezoidal_rule_ext _ _ _
                 (fun i => 1 * (fun e => e ^ 2) (error_at setpoint output i)))
        by (intros; ring).
      apply (Hzero Hout (fun e => e ^ 2) Hsq).
    + apply (Hzero Hout Rabs Rabs_R0).
    + apply (Hzero Hout (fun e => e ^ 2) Hsq).
Qed.

Lemma perfect_tracking_witness :
  calculate_performance_indices [0; 1; 2] [1; 1; 1] 1 =
    mkIndices (Fin 0) (Fin 0) (Fin 0) (Fin 0).
Proof.
  apply (proj2 (perfect_tracking [0; 1; 2] [1; 1; 1] 1 eq_refl
                  ltac:(cbn; lia)
                  ltac:(intros [| [| i]] Hi; cbn in *; try lra; lia))).
  intros [| [| [| i]]] Hi; cbn in *; try reflexivity; lia.
Defined.

(** X26.  The trapezoidal rule is exact on an error that is affine in time:
    if [setpoint - output] equals [a + b t] at every sample and is not
    negative there, IAE is the area of the trapezoid between the first and
    the last sample, on any grid (for the ramp of the repository's test,
    exactly 1). *)
Theorem iae_affine_error (time output : list R) (setpoint a b : R) :
  length time = length output -> (2 <= length time)%nat ->
  (forall i, (i < length time)%nat ->
     setpoint - sample output i = a + b * sample time i) ->
  (forall i, (i < length time)%nat -> 0 <= a + b * sample time i) ->
  let t_first := sample time 0 in
  let t_last := sample time (length time - 1) in
  IAE (calculate_performance_indices time output setpoint) =
    Fin ((t_last - t_first) * ((a + b * t_first) + (a + b * t_last)) / 2).
Proof.
  intros Hlen Hn Herr Hpos t_first t_last.
  rewrite calculate_performance_indices_value by assumption. cbv zeta.
  cbn [IAE]. f_equal.
  rewrite (trapezoidal_rule_ext _ _ _ (fun i => a + b * sample time i)).
  2:{ intros i Hi. unfold error_at. rewrite Herr by assumption.
      apply Rabs_right. apply Rle_ge. now apply Hpos. }
  unfold trapezoidal_rule.
  pose (F := fun j : nat => a * sample time j + b * sample time j ^ 2 / 2).
  rewrite (sum_upto_ext _ _ (fun i => F (S i) - F i))
    by (intros i Hi; unfold F; field).
  rewrite (sum_upto_telescope _ F). unfold F. subst t_first t_last. field.
Qed.

Lemma iae_affine_error_witness :
  IAE (calculate_performance_indices [0; 0.5; 2] [0; 0.25; 1] 1) =
    Fin ((sample [0; 0.5; 2] (3 - 1) - sample [0; 0.5; 2] 0)
         * ((1 + -0.5 * sample [0; 0.5; 2] 0)
            + (1 + -0.5 * sample [0; 0.5; 2] (3 - 1))) / 2).
Proof.
  apply (iae_affine_error [0; 0.5; 2] [0; 0.25; 1] 1 1 (-0.5)).
  - reflexivity.
  - cbn. lia.
  - intros [| [| [| i]]] Hi; cbn in *; try lra; lia.
  - intros [| [| [| i]]] Hi; cbn in *; try lra; lia.
Defined.

Lemma trapezoidal_rule_le (n : nat) (t f h : nat -> R) :
  (forall i, (S i < n)%nat -> t i <= t (S i)) ->
  (forall i, (i < n)%nat -> f i <= h i) ->
  trapezoidal_rule n t f <= trapezoidal_rule n t h.
Proof.
  intros Ht Hfh. unfold trapezoidal_rule. apply sum_upto_le.
  intros i Hi.
  assert (t i <= t (S i)) by (apply Ht; lia).
  assert (f i <= h i) by (apply Hfh; lia).
  assert (f (S i) <= h (S i)) by (apply Hfh; lia).
  nra.
Qed.

Lemma trapezoidal_rule_scale (n : nat) (c : R) (t f : nat -> R) :
  trapezoidal_rule n t (fun i => c * f i) = c * trapezoidal_rule n t f.
Proof.
  unfold trapezoidal_rule. rewrite <- sum_upto_scale.
  apply sum_upto_ext. intros i Hi. field.
Qed.

(** X27.  On a time grid that does not go back the time-weighted indices
    lie between the plain ones weighted with the first and with the last
    sample time: [t_first IAE <= ITAE <= t_last IAE], and the same for ITSE
    against ISE. *)
Theorem time_weighted_bounds (time output : list R) (setpoint : R) :
  length time = length output -> (2 <= length time)%nat ->
  nondecreasing time ->
  let t_first := sample time 0 in
  let t_last := sample time (length time - 1) in
  exists iae ise itae itse : R,
    calculate_performance_indices time output setpoint =
      mkIndices (Fin iae) (Fin ise) (Fin itae) (Fin itse)
    /\ t_first * iae <= itae <= t_last * iae
    /\ t_first * ise <= itse <= t_last * ise.
Proof.
  intros Hlen Hn Hmono t_first t_last.
  do 4 eexists. split.
  { apply calculate_performance_indices_value; assumption. }
  assert (Hstep : forall i, (S i < length time)%nat ->
            sample time i <= sample time (S i)) by exact Hmono.
  assert (Hlo : forall i, (i < length time)%nat -> t_first <= sample time i).
  { intros i Hi. apply nondecreasing_le; [assumption | lia | assumption]. }
  assert (Hhi : forall i, (i < length time)%nat -> sample time i <= t_last).
  { intros i Hi. apply nondecreasing_le; [assumption | lia | lia]. }
  rewrite <- !trapezoidal_rule_scale.
  repeat split; apply trapezoidal_rule_le; try exact Hstep; intros i Hi;
    specialize (Hlo i Hi); specialize (Hhi i Hi).
  - pose proof (Rabs_pos (error_at setpoint output i)). nra.
  - pose proof (Rabs_pos (error_at setpoint output i)). nra.
  - pose proof (pow2_ge_0 (error_at setpoint output i)). nra.
  - pose proof (pow2_ge_0 (error_at setpoint output i)). nra.
Qed.

Lemma time_weighted_bounds_witness :
  exists iae ise itae itse : R,
    calculate_performance_indices [0; 1; 2] [0; 0.5; 1] 1 =
      mkIndices (Fin iae) (Fin ise) (Fin itae) (Fin itse)
    /\ sample [0; 1; 2] 0 * iae <= itae <= sample [0; 1; 2] (3 - 1) * iae
    /\ sample [0; 1; 2] 0 * ise <= itse <= sample [0; 1; 2] (3 - 1) * ise.
Proof.
  apply (time_weighted_bounds [0; 1; 2] [0; 0.5; 1] 1).
  - reflexivity.
  - cbn. lia.
  - exact ramp_grid_nondecreasing.
Defined.

(** ** The open loop that [analyze_frequency_domain] hands to [margin] *)

(** The controller as a rational function, with and without integral
    action. *)
Lemma pid_controller_eval (pid_params : PID R) (s : complex) :
  let c := get_pid_controller pid_params in
  (Ki pid_params <> 0 ->
   polyval (num c) s =
     Cadd (Cadd (Cmul (Cof (Kd pid_params)) (Cmul s s))
                (Cmul (Cof (Kp pid_params)) s))
          (Cof (Ki pid_params))
   /\ polyval (den c) s = s)
  /\ (Ki pid_params = 0 ->
      polyval (num c) s =
        Cadd (Cmul (Cof (Kd pid_params)) s) (Cof (Kp pid_params))
      /\ polyval (den c) s = Cof 1).
Proof.
  destruct pid_params as [kp ki kd]. cbn [Kp Ki Kd].
  unfold get_pid_controller. cbn [Kp Ki Kd]. cbv zeta.
  split; intros Hi;
    destruct (Req_dec_T kd 0) as [-> | Hd];
    subst; settle_guards; cbn [to_tf]; eval_tf;
    destruct s as [x y]; split; complex_field.
Qed.

(** The numerator of the controller is zero only when all its gains are. *)
Lemma pid_controller_nonzero (pid_params : PID R) :
  Ki pid_params <> 0 \/ ~ (Kp pid_params = 0 /\ Kd pid_params = 0) ->
  all_zero (num (get_pid_controller pid_params)) = false.
Proof.
  intros H.
  destruct (all_zero (num (get_pid_controller pid_params))) eqn:Ez;
    [| reflexivity].
  exfalso.
  pose proof (all_zero_polyval _ (Cof 0) Ez) as Z0.
  pose proof (all_zero_polyval _ (Cof 1) Ez) as Z1.
  destruct (pid_controller_eval pid_params (Cof 0)) as [A0 B0].
  destruct (pid_controller_eval pid_params (Cof 1)) as [A1 B1].
  destruct (Req_dec_T (Ki pid_params) 0) as [Hi | Hi].
  - destruct H as [H | H]; [contradiction |].
    destruct (B0 Hi) as [E0 _]. destruct (B1 Hi) as [E1 _].
    rewrite E0 in Z0. rewrite E1 in Z1.
    apply (f_equal re) in Z0. apply (f_equal re) in Z1. cbn in Z0, Z1.
    apply H. split; lra.
  - destruct (A0 Hi) as [E0 _]. rewrite E0 in Z0.
    apply (f_equal re) in Z0. cbn in Z0. apply Hi. lra.
Qed.

(** X28.  For a plant [G = Ng / Dg] whose numerator [Ng] is not zero, the
    open loop on which [analyze_frequency_domain] computes the margins is
    the controller in series with the plant:
    [(Kd s^2 + Kp s + Ki) Ng / (s Dg)] with integral action, so that it has
    a pole at the origin, and [(Kd s + Kp) Ng / Dg] without, when [Kp] and
    [Kd] are not both zero.  In each case the numerator of the open loop is
    not zero. *)
Theorem open_loop_model (sys_tf : TransferFunction) (pid_params : PID R)
    (s : complex) :
  all_zero (num sys_tf) = false ->
  let open_loop := tf_mul (get_pid_controller pid_params) sys_tf in
  (Ki pid_params <> 0 ->
   all_zero (num open_loop) = false /\
   polyval (num open_loop) s =
     Cmul (Cadd (Cadd (Cmul (Cof (Kd pid_params)) (Cmul s s))
                      (Cmul (Cof (Kp pid_params)) s))
                (Cof (Ki pid_params)))
          (polyval (num sys_tf) s)
   /\ polyval (den open_loop) s = Cmul s (polyval (den sys_tf) s)
   /\ is_pole open_loop (Cof 0))
  /\ (Ki pid_params = 0 -> ~ (Kp pid_params = 0 /\ Kd pid_params = 0) ->
      all_zero (num open_loop) = false
      /\ polyval (num open_loop) s =
          Cmul (Cadd (Cmul (Cof (Kd pid_params)) s) (Cof (Kp pid_params)))
               (polyval (num sys_tf) s)
      /\ polyval (den open_loop) s = polyval (den sys_tf) s).
Proof.
  intros Hg open_loop. subst open_loop.
  destruct (pid_controller_eval pid_params s) as [H1 H0].
  destruct (pid_controller_eval pid_params (Cof 0)) as [H1' _].
  split.
  - intros Hi.
    destruct (H1 Hi) as [HN HD]. destruct (H1' Hi) as [_ HD'].
    split; [apply series_numerator_nonzero;
              [now apply pid_controller_nonzero; left | exact Hg] |].
    eval_tf. rewrite HN, HD. repeat split.
    unfold is_pole. eval_tf. rewrite HD'. ring.
  - intros Hi Hpd.
    destruct (H0 Hi) as [HN HD].
    split; [apply series_numerator_nonzero;
              [apply pid_controller_nonzero; right; exact Hpd | exact Hg] |].
    eval_tf. rewrite HN, HD. split; ring.
Qed.

Lemma open_loop_model_witness :
  all_zero (num (tf [1] [1; 1])) = false
  /\ is_pole (tf_mul (get_pid_controller (mkPID 2 5 3)) (tf [1] [1; 1]))
       (Cof 0).
Proof.
  assert (Hg : all_zero (num (tf [1] [1; 1])) = false).
  { unfold tf, all_zero. cbn. now settle_guards. }
  split; [exact Hg |].
  apply (proj1 (open_loop_model (tf [1] [1; 1]) (mkPID 2 5 3) (Cof 0) Hg)).
  cbn. lra.
Defined.

(** ** The closed-loop rule on the second-order plant *)

Lemma second_order_no_crossover (Kp omega_n zeta : R) (m : SecondOrder.t)
    (w : R) :
  SecondOrderTransferFunction Kp omega_n zeta 0 = Ok m -> 0 <= Kp ->
  ~ phase_crossover (SecondOrder.tf_model m) w.
Proof.
  intros H HK. unfold phase_crossover. cbv zeta.
  destruct (second_order_inv _ _ _ _ _ H) as (Hw & Hz & _).
  destruct (second_order_eval Kp omega_n zeta 0 m (mkC 0 w) H) as [H0 _].
  destruct (H0 eq_refl) as [-> ->].
  cbn. intros (_ & Him & Hre).
  assert (Hzw : 0 < zeta * omega_n) by now apply Rmult_lt_0_compat.
  assert (Hw2 : 0 < omega_n ^ 2) by nra.
  assert (HKw : 0 <= Kp * omega_n ^ 2) by now apply Rmult_le_pos; lra.
  destruct (Req_dec_T Kp 0) as [E | E].
  - subst Kp. lra.
  - assert (Hprod : (Kp * omega_n ^ 2) * (2 * (zeta * omega_n) * w) = 0) by lra.
    apply Rmult_integral in Hprod. destruct Hprod as [Hprod | Hprod].
    + apply Rmult_integral in Hprod. lra.
    + assert (Hw0 : w = 0) by nra. subst w.
      assert (0 < Kp * omega_n ^ 2 * omega_n ^ 2)
        by (repeat apply Rmult_lt_0_compat; lra).
      lra.
Qed.

(** X29.  For a second-order plant without dead time and with a process
    gain that is not negative, the only rule offered for it,
    [ziegler_nichols_closed_loop], is not applicable: the frequency response
    of the model never is a negative real number, so [control.margin], which
    reports an infinite gain margin when there is no phase crossover, has
    no ultimate gain to give. *)
Theorem second_order_no_ultimate_gain (ct : Control)
    (Kp omega_n zeta : R) (m : SecondOrder.t) :
  (forall g : TransferFunction,
      (forall w : R, ~ phase_crossover g w) -> gain_margin_of ct g = PInf) ->
  SecondOrderTransferFunction Kp omega_n zeta 0 = Ok m -> 0 <= Kp ->
  (forall w : R, ~ phase_crossover (SecondOrder.tf_model m) w)
  /\ ziegler_nichols_closed_loop ct (SecondOrder.tf_model m) =
       Raise (ValueError Msg.no_ultimate_gain).
Proof.
  intros Hmargin H HK.
  assert (Hno : forall w : R, ~ phase_crossover (SecondOrder.tf_model m) w).
  { intros w. now apply (second_order_no_crossover Kp omega_n zeta). }
  split; [exact Hno |].
  rewrite zn_closed_loop_unfold. cbv zeta.
  now rewrite (Hmargin _ Hno).
Qed.

Lemma second_order_no_ultimate_gain_witness :
  exists m : SecondOrder.t,
    SecondOrderTransferFunction 1 1 0.5 0 = Ok m
    /\ ziegler_nichols_closed_loop no_crossover_control (SecondOrder.tf_model m)
       = Raise (ValueError Msg.no_ultimate_gain).
Proof.
  destruct (second_order_value 1 1 0.5 0) as (d & _ & E); try lra.
  eexists. split; [exact E |].
  apply (second_order_no_ultimate_gain no_crossover_control 1 1 0.5 _).
  - intros g _. reflexivity.
  - exact E.
  - lra.
Defined.
